(** * Folder-relationship analysis of a duplicate-file report

    A shallow embedding of [src/folder_analyzer.py]
    ([FolderAnalyzer.analyze_folder_groups] and
    [FolderAnalyzer.compact_nested_folders]) and the properties the
    specification states about them.

    Modelling choices.
    - Python [str] is [string]; Python [int] is [Z].
    - [Set[str]] / [frozenset] is [gset string]: equality of [gset] is
      equality of contents, which is how a frozenset behaves as a dict key.
    - A Python [dict] keeps its keys in insertion order; it is an
      association list. A [defaultdict] inserts the default at the end on a
      missing key.
    - [group_files[0]] raises [IndexError] on an empty list; the size
      computations therefore live in [option], and [None] is the exception.
    - The [while True] loop of [compact_nested_folders] is run with fuel;
      [None] is "fuel exhausted", and [length groups] scans always suffice.
    - [list.sort(key, reverse=True)] and [sorted(..., reverse=True)] are
      stable; a stable sort has exactly one result, which the stable
      insertion sort [sort_desc] computes.
    - Lists stored in [shared_files] are values here. In the source,
      [merged_files[group_id].extend(files)] extends a list object of
      [groups[i]] in place; the merge replaces [groups[i]] and pops
      [groups[j]], so no group left in [groups] refers to that object
      unless two groups of the input already shared it. The lists built by
      [analyze_folder_groups] are distinct objects, and [folders],
      [total_shared_size] and [wasted_space] are never shared. *)

From Stdlib Require Import ZArith String Ascii.
From stdpp Require Import gmap strings list sorting.

Open Scope Z_scope.

(** ** Data model *)

Record DuplicateFile := {
  group_id : string;
  folder : string;
  path : string;
  size : Z
}.

Record FolderGroup := {
  folders : gset string;
  shared_files : list (string * list DuplicateFile);
  total_shared_size : Z;
  wasted_space : Z
}.

(** ** Insertion-ordered dictionaries *)

Section dict.
Context {K V : Type} `{EqDecision K}.

(** [k in d] *)
Fixpoint dict_mem (k : K) (d : list (K * V)) : bool :=
  match d with
  | [] => false
  | (k', _) :: d' => if decide (k' = k) then true else dict_mem k d'
  end.

(** [d.get(k)] *)
Fixpoint dict_get (k : K) (d : list (K * V)) : option V :=
  match d with
  | [] => None
  | (k', v) :: d' => if decide (k' = k) then Some v else dict_get k d'
  end.

(** [d[k] = v]: an existing key keeps its position, a new key goes last. *)
Fixpoint dict_set (k : K) (v : V) (d : list (K * V)) : list (K * V) :=
  match d with
  | [] => [(k, v)]
  | (k', v') :: d' =>
      if decide (k' = k) then (k', v) :: d' else (k', v') :: dict_set k v d'
  end.

(** In-place mutation of the value stored under [k] (no effect when [k]
    is absent). *)
Fixpoint dict_alter (f : V → V) (k : K) (d : list (K * V)) : list (K * V) :=
  match d with
  | [] => []
  | (k', v) :: d' =>
      if decide (k' = k) then (k', f v) :: d' else (k', v) :: dict_alter f k d'
  end.

(** [defaultdict.__getitem__]: a missing key is first bound to the
    default value. *)
Definition defaultdict_touch (dflt : V) (k : K) (d : list (K * V)) : list (K * V) :=
  if dict_mem k d then d else dict_set k dflt d.

(** [dd[k].mutate()] on a [defaultdict]. *)
Definition defaultdict_update (dflt : V) (f : V → V) (k : K) (d : list (K * V))
  : list (K * V) :=
  dict_alter f k (defaultdict_touch dflt k d).

Definition dict_values (d : list (K * V)) : list V := d.*2.
End dict.

(** ** Stable descending sort by [total_shared_size] *)

Fixpoint insert_desc (x : FolderGroup) (l : list FolderGroup) : list FolderGroup :=
  match l with
  | [] => [x]
  | y :: l' =>
      if bool_decide (total_shared_size x < total_shared_size y)
      then y :: insert_desc x l'
      else x :: y :: l'
  end.

(** [sorted(l, key=lambda x: x.total_shared_size, reverse=True)] *)
Definition sort_desc (l : list FolderGroup) : list FolderGroup :=
  foldr insert_desc [] l.

(** ** [analyze_folder_groups] *)

(** Lines 70-72: group the files by their duplicate group ID. *)
Definition groups_by_id (files : list DuplicateFile)
  : list (string * list DuplicateFile) :=
  fold_left
    (λ d file, defaultdict_update [] (λ l, l ++ [file]) (group_id file) d)
    files [].

(** Line 79: [{file.folder for file in group_files}] *)
Definition folder_set (group_files : list DuplicateFile) : gset string :=
  list_to_set (folder <$> group_files).

(** Line 85: [folder_relationships[folder_set][group_id].append(file)] *)
Definition relate (fs : gset string) (gid : string) (file : DuplicateFile)
    (rel : list (gset string * list (string * list DuplicateFile)))
  : list (gset string * list (string * list DuplicateFile)) :=
  defaultdict_update [] (defaultdict_update [] (λ l, l ++ [file]) gid) fs rel.

(** Lines 77-85: one iteration of the loop over [groups_by_id.items()]. *)
Definition relate_cluster
    (rel : list (gset string * list (string * list DuplicateFile)))
    (cluster : string * list DuplicateFile)
  : list (gset string * list (string * list DuplicateFile)) :=
  let '(gid, group_files) := cluster in
  let fs := folder_set group_files in
  if bool_decide (1 < base.size fs)%nat
  then fold_left (λ rel file, relate fs gid file rel) group_files rel
  else rel.

Definition folder_relationships (files : list DuplicateFile)
  : list (gset string * list (string * list DuplicateFile)) :=
  fold_left relate_cluster (groups_by_id files) [].

(** [group_files[0].size]; [None] stands for the [IndexError]. *)
Definition first_size (group_files : list DuplicateFile) : option Z :=
  size <$> head group_files.

(** Lines 91-94. *)
Definition compute_total_shared_size
    (shared : list (string * list DuplicateFile)) : option Z :=
  fold_left
    (λ acc group_files,
       total ← acc; s ← first_size group_files; Some (total + s))
    (dict_values shared) (Some 0).

(** Lines 97-100. *)
Definition compute_wasted_space
    (shared : list (string * list DuplicateFile)) : option Z :=
  fold_left
    (λ acc group_files,
       total ← acc; s ← first_size group_files;
       Some (total + s * (Z.of_nat (length group_files) - 1)))
    (dict_values shared) (Some 0).

(** Lines 89-109: one iteration of the loop that builds [results]. *)
Definition add_result (min_group_size : Z)
    (acc : option (list FolderGroup))
    (entry : gset string * list (string * list DuplicateFile))
  : option (list FolderGroup) :=
  let '(fs, shared) := entry in
  results ← acc;
  total ← compute_total_shared_size shared;
  wasted ← compute_wasted_space shared;
  if bool_decide (min_group_size ≤ total)
  then Some (results ++ [{| folders := fs; shared_files := shared;
                            total_shared_size := total;
                            wasted_space := wasted |}])
  else Some results.

Definition analyze_folder_groups (min_group_size : Z) (files : list DuplicateFile)
  : option (list FolderGroup) :=
  sort_desc <$>
    fold_left (add_result min_group_size) (folder_relationships files) (Some []).

(** ** [compact_nested_folders] *)

(** Line 122. *)
Definition is_nested (folder1 folder2 : string) : bool :=
  String.prefix (folder2 +:+ "/") folder1 || String.prefix (folder1 +:+ "/") folder2.

(** Lines 124-130. The loops return [True] at the first hit, so the result
    does not depend on the order in which the two sets are enumerated. *)
Definition should_merge (group1 group2 : FolderGroup) : bool :=
  existsb
    (λ folder1,
       existsb (λ folder2, bool_decide (folder1 = folder2) || is_nested folder1 folder2)
               (elements (folders group2)))
    (elements (folders group1)).

(** Lines 143-150. *)
Definition merge_shared_files
    (files_i files_j : list (string * list DuplicateFile))
  : list (string * list DuplicateFile) :=
  fold_left
    (λ merged_files '(gid, files),
       if dict_mem gid merged_files
       then dict_alter (λ l, l ++ files) gid merged_files
       else dict_set gid files merged_files)
    files_j files_i.

(** Lines 142-162. *)
Definition merge_groups (gi gj : FolderGroup) : FolderGroup :=
  {| folders := folders gi ∪ folders gj;
     shared_files := merge_shared_files (shared_files gi) (shared_files gj);
     total_shared_size := total_shared_size gi + total_shared_size gj;
     wasted_space := wasted_space gi + wasted_space gj |}.

(** Lines 139-169, for a fixed [i]: [gi] is [groups[i]] and [rest] is
    [groups[i+1:]]. At the first [j] with [should_merge] the result is the
    merged group together with [groups[i+1:]] without [groups[j]]. *)
Fixpoint merge_first (gi : FolderGroup) (rest : list FolderGroup)
  : option (FolderGroup * list FolderGroup) :=
  match rest with
  | [] => None
  | gj :: rest' =>
      if should_merge gi gj then Some (merge_groups gi gj, rest')
      else '(merged, rest'') ← merge_first gi rest'; Some (merged, gj :: rest'')
  end.

(** Lines 134-169: one iteration of the [while True] loop. [Some groups']
    is the list after the first merge ([merged = True]); [None] means the
    scan found no pair ([merged = False]). *)
Fixpoint merge_pass (groups : list FolderGroup) : option (list FolderGroup) :=
  match groups with
  | [] => None
  | gi :: rest =>
      match merge_first gi rest with
      | Some (merged, rest') => Some (merged :: rest')
      | None => (gi ::.) <$> merge_pass rest
      end
  end.

(** Lines 133-172; [None] is "out of fuel". *)
Fixpoint merge_loop (fuel : nat) (groups : list FolderGroup)
  : option (list FolderGroup) :=
  match fuel with
  | O => None
  | S fuel' =>
      match merge_pass groups with
      | Some groups' => merge_loop fuel' groups'
      | None => Some groups
      end
  end.

Definition compact_nested_folders_fuel (fuel : nat) (groups : list FolderGroup)
  : option (list FolderGroup) :=
  match groups with
  | [] => Some []
  | _ => sort_desc <$> merge_loop fuel groups
  end.

(** The loop performs at most [length groups - 1] merges, hence at most
    [length groups] scans. *)
Definition compact_nested_folders (groups : list FolderGroup)
  : option (list FolderGroup) :=
  compact_nested_folders_fuel (length groups) groups.

(** ** Grouping a list by a key

    Both loops of [analyze_folder_groups] follow the idiom
    [for x in xs: d[key(x)].append(x)] on a [defaultdict(list)]. *)

Section group_by_def.
Context {A K : Type} `{EqDecision K} (key : A → K).

Definition group_step (d : list (K * list A)) (x : A) : list (K * list A) :=
  defaultdict_update [] (λ l, l ++ [x]) (key x) d.

Definition group_by (xs : list A) : list (K * list A) := fold_left group_step xs [].
End group_by_def.

(** * Vocabulary of the specification and of the proofs *)

(** The folder set a cluster is filed under, and the test of line 82. *)
Definition cluster_folders (c : string * list DuplicateFile) : gset string :=
  folder_set c.2.

Definition spans_folders (c : string * list DuplicateFile) : Prop :=
  (1 < base.size (folder_set c.2))%nat.

Fixpoint Zsum (l : list Z) : Z :=
  match l with
  | [] => 0
  | x :: l' => x + Zsum l'
  end.

(** Size of the first record of a cluster, for a cluster that has one. *)
Definition head_size (l : list DuplicateFile) : Z := from_option size 0 (head l).

Definition total_of (shared : list (string * list DuplicateFile)) : Z :=
  Zsum (head_size <$> shared.*2).

Definition wasted_of (shared : list (string * list DuplicateFile)) : Z :=
  Zsum ((λ l, head_size l * (Z.of_nat (length l) - 1)) <$> shared.*2).

Definition make_group
    (entry : gset string * list (string * list DuplicateFile)) : FolderGroup :=
  {| folders := entry.1; shared_files := entry.2;
     total_shared_size := total_of entry.2;
     wasted_space := wasted_of entry.2 |}.

(** Descending order of [total_shared_size]. *)
Definition desc (x y : FolderGroup) : Prop :=
  total_shared_size y ≤ total_shared_size x.

Definition sorted_descending (l : list FolderGroup) : Prop :=
  ∀ i x y, l !! i = Some x → l !! S i = Some y →
           total_shared_size y ≤ total_shared_size x.

(** [s] begins with [p]. *)
Definition begins_with (s p : string) : Prop := ∃ r, s = p +:+ r.

(** The specification's nesting predicate on folder names. *)
Definition nested_or_identical (a b : string) : Prop :=
  a = b ∨ begins_with b (a +:+ "/") ∨ begins_with a (b +:+ "/").

(** Two groups are mergeable when some folder of one is nested in, or
    identical to, some folder of the other. *)
Definition mergeable (g1 g2 : FolderGroup) : Prop :=
  ∃ a b, a ∈ folders g1 ∧ b ∈ folders g2 ∧ nested_or_identical a b.

(** Being separate: the test of line 140 fails. *)
Definition separate (g1 g2 : FolderGroup) : Prop := should_merge g1 g2 = false.

(** ** Clusters and recomputation of the metrics *)

(** All records sharing a [group_id] have equal [size]. *)
Definition equal_size_per_group (files : list DuplicateFile) : Prop :=
  ∀ f1 f2, f1 ∈ files → f2 ∈ files →
           group_id f1 = group_id f2 → size f1 = size f2.

(** The cluster of [k]: the input records whose [group_id] is [k]. *)
Definition cluster (files : list DuplicateFile) (k : string) : list DuplicateFile :=
  filter (λ f, group_id f = k) files.

(** The per-copy size of the cluster of [k], read off its first record. *)
Definition cluster_size (files : list DuplicateFile) (k : string) : Z :=
  head_size (cluster files k).

(** [totalSharedSize] recomputed from a [sharedFiles] mapping: the per-copy
    size of the cluster, once per key. *)
Definition recomputed_total (files : list DuplicateFile)
    (shared : list (string * list DuplicateFile)) : Z :=
  Zsum (cluster_size files <$> shared.*1).

(** [wastedSpace] recomputed from a [sharedFiles] mapping: per key, the
    per-copy size times the number of records held under the key, less one. *)
Definition recomputed_wasted (files : list DuplicateFile)
    (shared : list (string * list DuplicateFile)) : Z :=
  Zsum ((λ c, cluster_size files c.1 * (Z.of_nat (length c.2) - 1)) <$> shared).

(** A group whose metrics agree with its [shared_files]: the keys are
    pairwise distinct, every key holds at least one record, every record
    held under [k] is an input record of cluster [k] and has the cluster's
    per-copy size, and both metrics equal their recomputation. *)
Definition consistent (files : list DuplicateFile) (g : FolderGroup) : Prop :=
  NoDup (shared_files g).*1 ∧
  (∀ k l, (k, l) ∈ shared_files g →
     l ≠ [] ∧ ∀ f, f ∈ l → f ∈ files ∧ group_id f = k ∧ size f = cluster_size files k) ∧
  total_shared_size g = recomputed_total files (shared_files g) ∧
  wasted_space g = recomputed_wasted files (shared_files g).

(** What [analyze_folder_groups] establishes and merging maintains: every
    key holds its whole cluster, the metrics are the sums over the entries,
    and no key occurs twice, neither within a group nor across groups. *)
Definition holds_clusters (files : list DuplicateFile) (g : FolderGroup) : Prop :=
  Forall (λ c, c.2 = cluster files c.1 ∧ c.2 ≠ []) (shared_files g) ∧
  total_shared_size g = total_of (shared_files g) ∧
  wasted_space g = wasted_of (shared_files g).

Definition all_keys (gs : list FolderGroup) : list string :=
  gs ≫= λ g, (shared_files g).*1.

Definition pipeline_inv (files : list DuplicateFile) (gs : list FolderGroup) : Prop :=
  NoDup (all_keys gs) ∧ Forall (holds_clusters files) gs.

(** ** Concrete inputs *)

Definition mk (g f p : string) (s : Z) : DuplicateFile :=
  {| group_id := g; folder := f; path := p; size := s |}.

(** The records of [test_analyze_folder_groups_threshold]. *)
Definition test_files : list DuplicateFile :=
  [ mk "1" "photos" "/volume1/photos/small.jpg" 1000;
    mk "1" "backup" "/volume1/backup/small.jpg" 1000;
    mk "2" "photos" "/volume1/photos/large.jpg" 2000;
    mk "2" "backup" "/volume1/backup/large.jpg" 2000 ].

(** [test_files] followed by a cluster whose two copies both live in
    [photos]. *)
Definition files_with_local_cluster : list DuplicateFile :=
  test_files ++
  [ mk "3" "photos" "/volume1/photos/a/x.jpg" 500;
    mk "3" "photos" "/volume1/photos/b/x.jpg" 500 ].

(** Three groups whose folder sets are [{A, A/x}], [{A/x, B}] and [{B, C}];
    their other fields are arbitrary. *)
Definition chain_groups (A B C x : string)
    (shared1 shared2 shared3 : list (string * list DuplicateFile))
    (total1 wasted1 total2 wasted2 total3 wasted3 : Z) : list FolderGroup :=
  [ {| folders := {[ A; A +:+ "/" +:+ x ]}; shared_files := shared1;
       total_shared_size := total1; wasted_space := wasted1 |};
    {| folders := {[ A +:+ "/" +:+ x; B ]}; shared_files := shared2;
       total_shared_size := total2; wasted_space := wasted2 |};
    {| folders := {[ B; C ]}; shared_files := shared3;
       total_shared_size := total3; wasted_space := wasted3 |} ].

(** Two clusters over the same pair of folders [a] and [b]: two copies of
    size 1000 under groupID [k1], two copies of size 2000 under [k2]. *)
Definition two_clusters (k1 k2 a b p1 p2 p3 p4 : string) : list DuplicateFile :=
  [ mk k1 a p1 1000; mk k1 b p2 1000; mk k2 a p3 2000; mk k2 b p4 2000 ].

(** A cluster whose two copies differ in size, in both orders. *)
Definition files_unequal : list DuplicateFile :=
  [ mk "1" "a" "/volume1/a/f" 1000; mk "1" "b" "/volume1/b/f" 2000 ].

Definition files_unequal_swapped : list DuplicateFile :=
  [ mk "1" "b" "/volume1/b/f" 2000; mk "1" "a" "/volume1/a/f" 1000 ].

(** [test_files] in another order. *)
Definition test_files_shuffled : list DuplicateFile :=
  [ mk "2" "backup" "/volume1/backup/large.jpg" 2000;
    mk "1" "photos" "/volume1/photos/small.jpg" 1000;
    mk "2" "photos" "/volume1/photos/large.jpg" 2000;
    mk "1" "backup" "/volume1/backup/small.jpg" 1000 ].

Global Instance DuplicateFile_eq_dec : EqDecision DuplicateFile.
Proof. solve_decision. Defined.

(** The groups of [test_compact_nested_folders]. *)
Definition test_groups : list FolderGroup :=
  [ {| folders := {[ "photos/vacation"; "backup/photos" ]};
       shared_files := [("1", [])];
       total_shared_size := 1000; wasted_space := 1000 |};
    {| folders := {[ "photos"; "backup" ]};
       shared_files := [("2", [])];
       total_shared_size := 2000; wasted_space := 2000 |} ].

(** The rows of [test_read_duplicate_report_valid], and the same rows with
    a row of three fields put in front of the last one. *)
Definition test_rows : list (list string) :=
  [ ["Group"; "Shared Folder"; "File"; "Size(Byte)"; "Modified Time"];
    ["1"; "photos"; "/volume1/photos/vacation/img1.jpg"; "1000"; "2024/01/01 12:00:00"];
    ["1"; "backup"; "/volume1/backup/pictures/img1.jpg"; "1000"; "2024/01/01 12:00:00"] ].

Definition short_row : list string := ["1"; "photos"; "/volume1/photos/img.jpg"].

(** Two groups whose folders contain no [/]. *)
Definition top_level_groups : FolderGroup * FolderGroup :=
  ({| folders := {[ "photos"; "backup" ]}; shared_files := [];
      total_shared_size := 0; wasted_space := 0 |},
   {| folders := {[ "photos"; "documents" ]}; shared_files := [];
      total_shared_size := 0; wasted_space := 0 |}).

(** ** Equality of outputs up to order *)

(** [l1] is a rearrangement of [l2] up to [R] on the elements. *)
Definition perm_upto {A} (R : A → A → Prop) (l1 l2 : list A) : Prop :=
  ∃ l, l1 ≡ₚ l ∧ Forall2 R l l2.

(** Entries with equal keys and related values. *)
Definition entry_rel {K V} (R : V → V → Prop) (e1 e2 : K * V) : Prop :=
  e1.1 = e2.1 ∧ R e1.2 e2.2.

(** Clusters with the same groupID holding the same records. *)
Definition same_cluster : relation (string * list DuplicateFile) :=
  entry_rel (perm_upto eq).

(** Two dictionaries with related values under every key. *)
Definition dict_rel {K V} `{EqDecision K} (R : V → V → Prop)
    (d1 d2 : list (K * V)) : Prop :=
  ∀ k, option_Forall2 R (dict_get k d1) (dict_get k d2).

(** Two groups over the same folders, with the same metrics and holding
    the same records under every groupID. *)
Definition same_group (g1 g2 : FolderGroup) : Prop :=
  folders g1 = folders g2 ∧
  total_shared_size g1 = total_shared_size g2 ∧
  wasted_space g1 = wasted_space g2 ∧
  dict_rel (≡ₚ) (shared_files g1) (shared_files g2).

(** The (folders, totalSharedSize, wastedSpace) triple of a group. *)
Definition metrics (g : FolderGroup) : gset string * Z * Z :=
  (folders g, total_shared_size g, wasted_space g).

(** ** Order of the index pairs visited by the nested loops *)

(** [(i', j')] is visited before [(i, j)] by
    [for i in range(n): for j in range(i + 1, n)]. *)
Definition earlier_pair (i' j' i j : nat) : Prop :=
  (i' < i ∨ (i' = i ∧ j' < j))%nat.

(** ** [read_duplicate_report]

    The function reads the file through [csv.reader]; the model starts from
    what the reader yields, the list of rows, each a list of fields, and
    from the outcome of [csv_path.exists()]. Python's [int(size_str)] is a
    parameter: [None] stands for its [ValueError]. *)

Inductive ReadError :=
  | FileNotFound                                (* line 33 *)
  | InvalidHeader                               (* line 44 *)
  | InvalidRowFormat (row : list string)        (* line 49 *)
  | InvalidSizeValue (size_str : string).       (* line 56 *)

(** Line 42. *)
Definition expected_header : list string :=
  ["Group"; "Shared Folder"; "File"; "Size(Byte)"; "Modified Time"].

Section read_duplicate_report.
Variable int_of_string : string → option Z.

(** Lines 48-63: the body of the loop, for one row. *)
Definition read_row (row : list string) : ReadError + DuplicateFile :=
  match row with
  | [gid; shared_folder; file_path; size_str; _] =>
      match int_of_string size_str with
      | Some sz => inr {| group_id := gid; folder := shared_folder;
                          path := file_path; size := sz |}
      | None => inl (InvalidSizeValue size_str)
      end
  | _ => inl (InvalidRowFormat row)
  end.

(** Lines 47-63: the loop over the remaining rows; the first exception
    leaves the function. *)
Fixpoint read_rows (rows : list (list string)) (duplicate_files : list DuplicateFile)
  : ReadError + list DuplicateFile :=
  match rows with
  | [] => inr duplicate_files
  | row :: rows' =>
      match read_row row with
      | inl e => inl e
      | inr file => read_rows rows' (duplicate_files ++ [file])
      end
  end.

(** Lines 30-65. [next(reader, None)] is [None] on a file without rows,
    which differs from the expected header. *)
Definition read_duplicate_report (file_exists : bool) (rows : list (list string))
  : ReadError + list DuplicateFile :=
  if negb file_exists then inl FileNotFound
  else match rows with
       | [] => inl InvalidHeader
       | header :: rows' =>
           if decide (header = expected_header) then read_rows rows' []
           else inl InvalidHeader
       end.

(** ** [utils.parse_csv_line]

    Lines 66-81, from the fields [csv.reader] splits the stripped line
    into; [all([...])] rejects an empty string. *)

Inductive ParseError :=
  | WrongFieldCount (n : nat)                   (* line 67 *)
  | BadSizeValue (size_str : string)            (* line 75 *)
  | EmptyField.                                 (* line 79 *)

Definition parse_csv_line (fields : list string)
  : ParseError + (string * string * string * Z * string) :=
  match fields with
  | [gid; fold; file_path; size_str; modified] =>
      match int_of_string size_str with
      | None => inl (BadSizeValue size_str)
      | Some sz =>
          if forallb (λ s, negb (String.eqb s "")) [gid; fold; file_path; modified]
          then inr (gid, fold, file_path, sz, modified)
          else inl EmptyField
      end
  | _ => inl (WrongFieldCount (length fields))
  end.
End read_duplicate_report.

(** A reader of plain decimal numerals, on which [int] agrees; it
    instantiates [int_of_string] in the examples. *)
Definition digit_value (c : Ascii.ascii) : option Z :=
  let n := Ascii.nat_of_ascii c in
  if bool_decide (48 ≤ n ≤ 57)%nat then Some (Z.of_nat n - 48) else None.

Fixpoint decimal_value (acc : Z) (s : string) : option Z :=
  match s with
  | EmptyString => Some acc
  | String c s' => d ← digit_value c; decimal_value (10 * acc + d) s'
  end.

Definition decimal_of_string (s : string) : option Z :=
  match s with
  | EmptyString => None
  | _ => decimal_value 0 s
  end.

(** ** [utils.extract_folder_name]

    [re.match(r'^/volume1/([^/]+)/', path)]: the path starts with
    [/volume1/], then comes a non-empty run of characters other than [/],
    then a [/]. The group is greedy and must be followed by [/], so it is
    the whole run up to the next [/]. [None] stands for the [ValueError]. *)

Fixpoint strip_prefix (p s : string) : option string :=
  match p with
  | EmptyString => Some s
  | String c p' =>
      match s with
      | EmptyString => None
      | String c' s' => if decide (c = c') then strip_prefix p' s' else None
      end
  end.

(** The longest prefix without [/], and what follows it. *)
Fixpoint until_slash (s : string) : string * string :=
  match s with
  | EmptyString => (EmptyString, EmptyString)
  | String c s' =>
      if decide (c = "/"%char) then (EmptyString, s)
      else let '(name, rest) := until_slash s' in (String c name, rest)
  end.

Definition extract_folder_name (path : string) : option string :=
  rest ← strip_prefix "/volume1/" path;
  match until_slash rest with
  | (String c name, String _ _) => Some (String c name)
  | _ => None
  end.

(** [s] contains no [/]. *)
Definition slash_free (s : string) : Prop :=
  "/"%char ∉ String.list_ascii_of_string s.

(** ** Measures of a list of groups *)

Definition sum_totals (gs : list FolderGroup) : Z :=
  Zsum (total_shared_size <$> gs).

Definition sum_wasted (gs : list FolderGroup) : Z :=
  Zsum (wasted_space <$> gs).

(** Every folder named by some group. *)
Definition all_folders (gs : list FolderGroup) : gset string :=
  ⋃ (folders <$> gs).

(** Every record held by some group. *)
Definition records (g : FolderGroup) : list DuplicateFile :=
  mjoin (shared_files g).*2.

Definition all_records (gs : list FolderGroup) : list DuplicateFile :=
  gs ≫= records.

(** No two groups at different positions are mergeable. *)
Definition pairwise_unmergeable (gs : list FolderGroup) : Prop :=
  ∀ i j gi gj, i ≠ j → gs !! i = Some gi → gs !! j = Some gj → ¬ mergeable gi gj.

(** ** Rows and records *)

(** [row] is a five-field row whose first three fields are those of [f],
    whose fourth field [int] reads as the size of [f], and whose fifth
    field is arbitrary. *)
Definition row_of (int_of_string : string → option Z)
    (row : list string) (f : DuplicateFile) : Prop :=
  ∃ size_str modified,
    row = [group_id f; folder f; path f; size_str; modified] ∧
    int_of_string size_str = Some (size f).

(** * List utilities *)

Lemma Forall_list_filter {A} (P Q : A → Prop) `{∀ x, Decision (Q x)} (l : list A) :
  Forall P l → Forall P (filter Q l).
Proof.
  rewrite !Forall_forall. intros HP x [_ Hx]%list_elem_of_filter. auto.
Qed.

(** * Facts about insertion-ordered dictionaries *)

Section dict_facts.
Context {K V : Type} `{EqDecision K}.
Implicit Types (d : list (K * V)) (k : K) (v : V).

Lemma dict_mem_true k d : dict_mem k d = true ↔ k ∈ d.*1.
Proof.
  induction d as [|[k' v'] d IH]; simpl.
  - split; [done | by intros ?%elem_of_nil].
  - case_decide; subst.
    + split; [intros _; left | done].
    + rewrite IH, elem_of_cons. naive_solver.
Qed.

Lemma dict_mem_false k d : dict_mem k d = false ↔ k ∉ d.*1.
Proof. rewrite <- dict_mem_true. by destruct (dict_mem k d). Qed.

Lemma dict_get_None k d : dict_get k d = None ↔ k ∉ d.*1.
Proof.
  induction d as [|[k' v'] d IH]; simpl.
  - split; [intros _ ?%elem_of_nil; done | done].
  - case_decide; subst.
    + split; [done | intros []; left].
    + rewrite IH, not_elem_of_cons. naive_solver.
Qed.

Lemma dict_get_is_Some k d : is_Some (dict_get k d) ↔ k ∈ d.*1.
Proof.
  rewrite <- not_eq_None_Some, dict_get_None.
  destruct (decide (k ∈ d.*1)); naive_solver.
Qed.

Lemma dict_get_elem_of k v d : dict_get k d = Some v → (k, v) ∈ d.
Proof.
  induction d as [|[k' v'] d IH]; simpl; [done|].
  case_decide; subst.
  - intros [= ->]. left.
  - intros ?. right. auto.
Qed.

Lemma dict_get_NoDup k v d : NoDup d.*1 → (k, v) ∈ d → dict_get k d = Some v.
Proof.
  induction d as [|[k' v'] d IH]; simpl.
  - by intros _ ?%elem_of_nil.
  - intros [Hk Hd]%NoDup_cons [[= -> ->]|Hin]%elem_of_cons.
    + by rewrite decide_True.
    + rewrite decide_False; [auto|].
      intros ->. apply Hk. by apply (list_elem_of_fmap_2 fst) in Hin.
Qed.

Lemma dict_alter_keys f k d : (dict_alter f k d).*1 = d.*1.
Proof.
  induction d as [|[k' v'] d IH]; csimpl; [done|].
  case_decide; csimpl; by rewrite ?IH.
Qed.

Lemma dict_alter_notin f k d : k ∉ d.*1 → dict_alter f k d = d.
Proof.
  induction d as [|[k' v'] d IH]; simpl; [done|].
  intros [? ?]%not_elem_of_cons. rewrite decide_False by done.
  by rewrite IH.
Qed.

Lemma dict_set_notin k v d : k ∉ d.*1 → dict_set k v d = d ++ [(k, v)].
Proof.
  induction d as [|[k' v'] d IH]; simpl; [done|].
  intros [? ?]%not_elem_of_cons. rewrite decide_False by done.
  by rewrite IH.
Qed.

Lemma dict_alter_app_l f k d1 d2 :
  k ∈ d1.*1 → dict_alter f k (d1 ++ d2) = dict_alter f k d1 ++ d2.
Proof.
  induction d1 as [|[k' v'] d1 IH]; simpl.
  - by intros ?%elem_of_nil.
  - intros Hin. case_decide; [done|].
    rewrite IH; [done|].
    apply elem_of_cons in Hin as [|]; [congruence|done].
Qed.

Lemma dict_alter_app_r f k d1 d2 :
  k ∉ d1.*1 → dict_alter f k (d1 ++ d2) = d1 ++ dict_alter f k d2.
Proof.
  induction d1 as [|[k' v'] d1 IH]; simpl; [done|].
  intros [? ?]%not_elem_of_cons. rewrite decide_False by done.
  by rewrite IH.
Qed.

Lemma dict_get_alter f k k' d :
  dict_get k' (dict_alter f k d) =
  if decide (k = k') then f <$> dict_get k d else dict_get k' d.
Proof.
  induction d as [|[k0 v0] d IH]; simpl.
  - by case_decide.
  - repeat (case_decide; simpl; subst); try congruence;
      rewrite IH; by (rewrite decide_True by done) || (rewrite decide_False by done).
Qed.

Lemma dict_get_app k d1 d2 :
  dict_get k (d1 ++ d2) =
  match dict_get k d1 with Some v => Some v | None => dict_get k d2 end.
Proof.
  induction d1 as [|[k0 v0] d1 IH]; simpl; [done|].
  by case_decide.
Qed.

Lemma defaultdict_update_fresh dflt f k d :
  k ∉ d.*1 → defaultdict_update dflt f k d = d ++ [(k, f dflt)].
Proof.
  intros Hk. unfold defaultdict_update, defaultdict_touch.
  rewrite (proj2 (dict_mem_false k d) Hk), dict_set_notin by done.
  rewrite dict_alter_app_r by done. simpl. by rewrite decide_True.
Qed.

Lemma defaultdict_update_present dflt f k d :
  k ∈ d.*1 → defaultdict_update dflt f k d = dict_alter f k d.
Proof.
  intros Hk. unfold defaultdict_update, defaultdict_touch.
  by rewrite (proj2 (dict_mem_true k d) Hk).
Qed.

Lemma defaultdict_update_keys dflt f k d :
  (defaultdict_update dflt f k d).*1 =
  if decide (k ∈ d.*1) then d.*1 else d.*1 ++ [k].
Proof.
  case_decide.
  - by rewrite defaultdict_update_present, dict_alter_keys.
  - by rewrite defaultdict_update_fresh, fmap_app.
Qed.

Lemma defaultdict_update_NoDup dflt f k d :
  NoDup d.*1 → NoDup (defaultdict_update dflt f k d).*1.
Proof.
  intros Hd. rewrite defaultdict_update_keys. case_decide; [done|].
  apply NoDup_app. split_and!; [done| |apply NoDup_singleton].
  intros x Hx ->%list_elem_of_singleton. done.
Qed.

Lemma dict_get_defaultdict_update dflt f k k' d :
  dict_get k' (defaultdict_update dflt f k d) =
  if decide (k = k') then Some (f (default dflt (dict_get k d)))
  else dict_get k' d.
Proof.
  destruct (decide (k ∈ d.*1)) as [Hin|Hnin].
  - rewrite defaultdict_update_present, dict_get_alter by done.
    case_decide; [|done].
    apply dict_get_is_Some in Hin as [v ->]. done.
  - rewrite defaultdict_update_fresh, dict_get_app by done. simpl.
    rewrite (proj2 (dict_get_None k d) Hnin). simpl.
    case_decide; subst.
    + by rewrite (proj2 (dict_get_None k' d) Hnin).
    + by destruct (dict_get k' d).
Qed.

Lemma dict_alter_ext f g k d :
  (∀ v, dict_get k d = Some v → f v = g v) →
  dict_alter f k d = dict_alter g k d.
Proof.
  induction d as [|[k' v'] d IH]; simpl; [done|].
  case_decide; intros Hfg.
  - by rewrite Hfg.
  - by rewrite IH.
Qed.

Lemma dict_alter_compose f g k d :
  dict_alter g k (dict_alter f k d) = dict_alter (g ∘ f) k d.
Proof.
  induction d as [|[k' v'] d IH]; simpl; [done|].
  case_decide; simpl.
  - by rewrite decide_True.
  - by rewrite decide_False, IH.
Qed.

Lemma defaultdict_update_ext dflt f g k d :
  f (default dflt (dict_get k d)) = g (default dflt (dict_get k d)) →
  defaultdict_update dflt f k d = defaultdict_update dflt g k d.
Proof.
  intros Hfg. destruct (decide (k ∈ d.*1)) as [Hin|Hnin].
  - rewrite !defaultdict_update_present by done.
    apply dict_alter_ext. intros v Hv. by rewrite Hv in Hfg.
  - rewrite !defaultdict_update_fresh by done.
    apply dict_get_None in Hnin. rewrite Hnin in Hfg. simpl in Hfg.
    by rewrite Hfg.
Qed.

Lemma defaultdict_update_compose dflt f g k d :
  defaultdict_update dflt g k (defaultdict_update dflt f k d) =
  defaultdict_update dflt (g ∘ f) k d.
Proof.
  destruct (decide (k ∈ d.*1)) as [Hin|Hnin].
  - rewrite (defaultdict_update_present dflt f), (defaultdict_update_present dflt (g ∘ f)) by done.
    rewrite defaultdict_update_present by (by rewrite dict_alter_keys).
    apply dict_alter_compose.
  - rewrite (defaultdict_update_fresh dflt f), (defaultdict_update_fresh dflt (g ∘ f)) by done.
    rewrite defaultdict_update_present.
    + rewrite dict_alter_app_r by done. simpl. by rewrite decide_True.
    + rewrite fmap_app. apply elem_of_app. right. simpl. left.
Qed.

(** Restricting a dictionary to the keys satisfying [P]. *)
Lemma filter_keys_alter (P : K → Prop) `{∀ k, Decision (P k)} f k d :
  filter (λ e, P e.1) (dict_alter f k d) =
  if decide (P k) then dict_alter f k (filter (λ e, P e.1) d)
  else filter (λ e, P e.1) d.
Proof.
  induction d as [|[k' v'] d IH]; simpl.
  - by case_decide.
  - destruct (decide (k' = k)) as [->|Hne].
    + destruct (decide (P k)) as [HP|HP].
      * rewrite !filter_cons_True by done. simpl. by rewrite decide_True.
      * by rewrite !filter_cons_False by done.
    + rewrite !filter_cons. simpl. rewrite IH.
      destruct (decide (P k')), (decide (P k)); simpl; try done.
      by rewrite decide_False.
Qed.

Lemma filter_keys_fmap (P : K → Prop) `{∀ k, Decision (P k)} d :
  (filter (λ e, P e.1) d).*1 = filter P d.*1.
Proof.
  induction d as [|[k' v'] d IH]; [done|].
  rewrite fmap_cons, !filter_cons. simpl.
  case_decide; csimpl; by rewrite IH.
Qed.

Lemma filter_keys_defaultdict_update (P : K → Prop) `{∀ k, Decision (P k)}
    dflt f k d :
  filter (λ e, P e.1) (defaultdict_update dflt f k d) =
  if decide (P k) then defaultdict_update dflt f k (filter (λ e, P e.1) d)
  else filter (λ e, P e.1) d.
Proof.
  destruct (decide (k ∈ d.*1)) as [Hin|Hnin].
  - rewrite defaultdict_update_present, filter_keys_alter by done.
    case_decide; [|done].
    rewrite defaultdict_update_present; [done|].
    rewrite filter_keys_fmap. by apply list_elem_of_filter.
  - rewrite defaultdict_update_fresh, filter_app by done.
    case_decide.
    + rewrite defaultdict_update_fresh, filter_cons_True by
        (by rewrite ?filter_keys_fmap, ?list_elem_of_filter; tauto).
      done.
    + rewrite filter_cons_False by done. by rewrite app_nil_r.
Qed.
End dict_facts.

(** * Grouping a list by a key *)

Section group_by.
Context {A K : Type} `{EqDecision K} (key : A → K).
Implicit Types (d : list (K * list A)) (k : K) (xs : list A).

Lemma group_fold_NoDup xs d :
  NoDup d.*1 → NoDup (fold_left (group_step key) xs d).*1.
Proof.
  revert d. induction xs as [|x xs IH]; intros d Hd; simpl; [done|].
  apply IH. by apply defaultdict_update_NoDup.
Qed.

Lemma dict_get_group_fold k xs d :
  dict_get k (fold_left (group_step key) xs d) =
  match dict_get k d, filter (λ x, key x = k) xs with
  | None, [] => None
  | o, l => Some (default [] o ++ l)
  end.
Proof.
  revert d. induction xs as [|x xs IH]; intros d; simpl.
  - destruct (dict_get k d); simpl; [by rewrite app_nil_r|done].
  - rewrite IH. unfold group_step at 1.
    rewrite dict_get_defaultdict_update, filter_cons.
    destruct (decide (key x = k)) as [->|Hne]; simpl.
    + rewrite <- app_assoc. simpl.
      destruct (dict_get k d); simpl; by destruct (filter _ xs).
    + done.
Qed.

Lemma group_by_NoDup xs : NoDup (group_by key xs).*1.
Proof. apply group_fold_NoDup. constructor. Qed.

Lemma dict_get_group_by k xs :
  dict_get k (group_by key xs) =
  match filter (λ x, key x = k) xs with
  | [] => None
  | l => Some l
  end.
Proof. unfold group_by. rewrite dict_get_group_fold. simpl. by destruct (filter _ xs). Qed.

Lemma elem_of_group_by k l xs :
  (k, l) ∈ group_by key xs ↔ l = filter (λ x, key x = k) xs ∧ l ≠ [].
Proof.
  split.
  - intros Hin. apply dict_get_NoDup in Hin; [|apply group_by_NoDup].
    rewrite dict_get_group_by in Hin.
    destruct (filter _ xs) eqn:E; [done|]. by injection Hin as <-.
  - intros [-> Hne]. apply dict_get_elem_of. rewrite dict_get_group_by.
    by destruct (filter _ xs).
Qed.

(** Dropping every element with key [k0] drops the entry of [k0] and
    leaves the other entries, and their order, untouched. *)
Lemma group_fold_filter k0 xs d :
  fold_left (group_step key) (filter (λ x, key x ≠ k0) xs) (filter (λ e, e.1 ≠ k0) d) =
  filter (λ e, e.1 ≠ k0) (fold_left (group_step key) xs d).
Proof.
  revert d. induction xs as [|x xs IH]; intros d; simpl; [done|].
  rewrite <- IH, filter_cons. unfold group_step at 3.
  pose proof (filter_keys_defaultdict_update (λ k, k ≠ k0) [] (λ l, l ++ [x]) (key x) d) as Hf.
  cbv beta in Hf. rewrite Hf.
  by case_decide.
Qed.

Lemma group_by_filter k0 xs :
  group_by key (filter (λ x, key x ≠ k0) xs) =
  filter (λ e, e.1 ≠ k0) (group_by key xs).
Proof. apply (group_fold_filter k0 xs []). Qed.
End group_by.

(** * The two grouping loops of [analyze_folder_groups] *)

Lemma groups_by_id_group_by files :
  groups_by_id files = group_by group_id files.
Proof. reflexivity. Qed.

Lemma relate_first fs gid f
    (rel : list (gset string * list (string * list DuplicateFile))) :
  gid ∉ (default [] (dict_get fs rel)).*1 →
  relate fs gid f rel =
  defaultdict_update [] (λ inner, inner ++ [(gid, [f])]) fs rel.
Proof.
  intros Hfresh. unfold relate. apply defaultdict_update_ext.
  by rewrite defaultdict_update_fresh.
Qed.

Lemma relate_next fs gid pre f
    (rel : list (gset string * list (string * list DuplicateFile))) :
  gid ∉ (default [] (dict_get fs rel)).*1 →
  relate fs gid f (defaultdict_update [] (λ inner, inner ++ [(gid, pre)]) fs rel) =
  defaultdict_update [] (λ inner, inner ++ [(gid, pre ++ [f])]) fs rel.
Proof.
  intros Hfresh. unfold relate. rewrite defaultdict_update_compose.
  apply defaultdict_update_ext. simpl.
  rewrite defaultdict_update_present.
  - rewrite dict_alter_app_r by done. simpl. by rewrite decide_True.
  - rewrite fmap_app, elem_of_app. right. left.
Qed.

Lemma relate_fold fs gid pre suf
    (rel : list (gset string * list (string * list DuplicateFile))) :
  gid ∉ (default [] (dict_get fs rel)).*1 →
  fold_left (λ rel file, relate fs gid file rel) suf
    (defaultdict_update [] (λ inner, inner ++ [(gid, pre)]) fs rel) =
  defaultdict_update [] (λ inner, inner ++ [(gid, pre ++ suf)]) fs rel.
Proof.
  intros Hfresh. revert pre. induction suf as [|f suf IH]; intros pre; simpl.
  - by rewrite app_nil_r.
  - rewrite relate_next by done. rewrite IH. by rewrite <- app_assoc.
Qed.

(** Filing a whole cluster record by record amounts to appending the
    cluster to the entry of its folder set. *)
Lemma relate_cluster_group_step
    (rel : list (gset string * list (string * list DuplicateFile))) c :
  c.2 ≠ [] →
  c.1 ∉ (default [] (dict_get (cluster_folders c) rel)).*1 →
  relate_cluster rel c =
  if decide (spans_folders c) then group_step cluster_folders rel c else rel.
Proof.
  destruct c as [gid gf]. simpl. intros Hne Hfresh. unfold relate_cluster.
  destruct (decide (spans_folders (gid, gf))) as [Hs|Hs].
  - rewrite bool_decide_eq_true_2 by done.
    destruct gf as [|f gf]; [done|]. simpl.
    rewrite relate_first by done. rewrite relate_fold by done. done.
  - by rewrite bool_decide_eq_false_2.
Qed.

Lemma fold_relate_cluster (gb : list (string * list DuplicateFile)) :
  NoDup gb.*1 →
  Forall (λ c, c.2 ≠ []) gb →
  fold_left relate_cluster gb [] =
  group_by cluster_folders (filter spans_folders gb).
Proof.
  induction gb as [|c gb IH] using rev_ind; [done|].
  rewrite fmap_app, Forall_app, Forall_singleton.
  intros [Hgb [Hc _]]%NoDup_app [Hne Hcne].
  rewrite fold_left_app, filter_app. simpl. rewrite IH by done.
  rewrite relate_cluster_group_step; [| done |].
  - unfold group_by. rewrite fold_left_app, filter_cons, filter_nil.
    by case_decide.
  - intros Hin. apply list_elem_of_fmap in Hin as ([k' l'] & Hk & Hin).
    simpl in Hk. rewrite dict_get_group_by in Hin.
    destruct (filter _ (filter _ gb)) as [|c0 l] eqn:E; simpl in Hin.
    + by apply elem_of_nil in Hin.
    + rewrite <- E in Hin.
      apply list_elem_of_filter in Hin as [_ Hin].
      apply list_elem_of_filter in Hin as [_ Hin].
      apply (Hc c.1).
      * rewrite Hk. by apply (list_elem_of_fmap_2 fst) in Hin.
      * left.
Qed.

Lemma groups_by_id_nonempty files :
  Forall (λ c, c.2 ≠ []) (groups_by_id files).
Proof.
  apply Forall_forall. intros [k l] Hin. simpl.
  by apply elem_of_group_by in Hin as [_ ?].
Qed.

(** Closed form of lines 70-85. *)
Lemma folder_relationships_group_by files :
  folder_relationships files =
  group_by cluster_folders (filter spans_folders (group_by group_id files)).
Proof.
  unfold folder_relationships. apply fold_relate_cluster.
  - apply group_by_NoDup.
  - apply groups_by_id_nonempty.
Qed.

(** * The size computations and the result loop *)

Lemma Zsum_app l1 l2 : Zsum (l1 ++ l2) = Zsum l1 + Zsum l2.
Proof. induction l1; simpl; lia. Qed.

Lemma Zsum_perm l1 l2 : l1 ≡ₚ l2 → Zsum l1 = Zsum l2.
Proof. induction 1; simpl; lia. Qed.

Lemma first_size_nonempty l : l ≠ [] → first_size l = Some (head_size l).
Proof. by destruct l. Qed.

Lemma fold_first_sizes (g : list DuplicateFile → Z → Z) (vals : list (list DuplicateFile)) a :
  Forall (λ l, l ≠ []) vals →
  fold_left (λ acc l, total ← acc; s ← first_size l; Some (total + g l s))
    vals (Some a) =
  Some (a + Zsum ((λ l, g l (head_size l)) <$> vals)).
Proof.
  revert a. induction vals as [|l vals IH]; intros a Hne; csimpl.
  - f_equal. lia.
  - apply Forall_cons in Hne as [Hl Hne].
    rewrite first_size_nonempty by done. csimpl. rewrite IH by done.
    f_equal. lia.
Qed.

Lemma dict_values_nonempty (shared : list (string * list DuplicateFile)) :
  Forall (λ c, c.2 ≠ []) shared → Forall (λ l, l ≠ []) (dict_values shared).
Proof. intros H. unfold dict_values. by apply Forall_fmap. Qed.

(** No [IndexError]: on non-empty clusters lines 91-94 compute [total_of]. *)
Lemma compute_total_shared_size_Some shared :
  Forall (λ c, c.2 ≠ []) shared →
  compute_total_shared_size shared = Some (total_of shared).
Proof.
  intros H%dict_values_nonempty. unfold compute_total_shared_size.
  by rewrite (fold_first_sizes (λ _ s, s)).
Qed.

Lemma compute_wasted_space_Some shared :
  Forall (λ c, c.2 ≠ []) shared →
  compute_wasted_space shared = Some (wasted_of shared).
Proof.
  intros H%dict_values_nonempty. unfold compute_wasted_space.
  by rewrite (fold_first_sizes (λ l s, s * (Z.of_nat (length l) - 1))).
Qed.

Lemma fold_add_result m
    (rel : list (gset string * list (string * list DuplicateFile))) acc :
  Forall (λ e, Forall (λ c, c.2 ≠ []) e.2) rel →
  fold_left (add_result m) rel (Some acc) =
  Some (acc ++ filter (λ g, m ≤ total_shared_size g) (make_group <$> rel)).
Proof.
  revert acc. induction rel as [|[fs shared] rel IH]; intros acc Hne; simpl.
  - by rewrite app_nil_r.
  - apply Forall_cons in Hne as [Hs Hne]. simpl in Hs.
    rewrite compute_total_shared_size_Some, compute_wasted_space_Some by done.
    simpl. rewrite filter_cons. simpl. case_bool_decide.
    + rewrite decide_True by done. rewrite IH by done. by rewrite <- app_assoc.
    + rewrite decide_False by done. by rewrite IH.
Qed.

Lemma elem_of_folder_relationships fs shared files :
  (fs, shared) ∈ folder_relationships files ↔
  shared = filter (λ c, cluster_folders c = fs)
             (filter spans_folders (groups_by_id files)) ∧
  shared ≠ [].
Proof. rewrite folder_relationships_group_by. apply elem_of_group_by. Qed.

Lemma folder_relationships_nonempty files :
  Forall (λ e, Forall (λ c, c.2 ≠ []) e.2) (folder_relationships files).
Proof.
  apply Forall_forall. intros [fs shared] [-> _]%elem_of_folder_relationships.
  simpl. do 2 apply Forall_list_filter. apply groups_by_id_nonempty.
Qed.

(** Closed form of [analyze_folder_groups]; in particular it never raises. *)
Lemma analyze_folder_groups_closed m files :
  analyze_folder_groups m files =
  Some (sort_desc (filter (λ g, m ≤ total_shared_size g)
                          (make_group <$> folder_relationships files))).
Proof.
  unfold analyze_folder_groups.
  by rewrite fold_add_result by apply folder_relationships_nonempty.
Qed.

(** * The stable descending sort *)

Lemma insert_desc_perm x l : insert_desc x l ≡ₚ x :: l.
Proof.
  induction l as [|y l IH]; simpl; [done|].
  case_bool_decide; [|done]. rewrite IH. apply perm_swap.
Qed.

Lemma sort_desc_perm l : sort_desc l ≡ₚ l.
Proof.
  induction l as [|x l IH]; simpl; [done|].
  by rewrite insert_desc_perm, IH.
Qed.

Lemma insert_desc_sorted x l :
  StronglySorted desc l → StronglySorted desc (insert_desc x l).
Proof.
  induction l as [|y l IH]; simpl; intros Hl.
  - repeat constructor.
  - apply StronglySorted_cons in Hl as [Hy Hl]. case_bool_decide as Hlt.
    + apply StronglySorted_cons. split; [|auto].
      rewrite insert_desc_perm. constructor; [unfold desc; lia|done].
    + apply StronglySorted_cons. split; [|by apply StronglySorted_cons].
      constructor; [unfold desc; lia|].
      eapply Forall_impl; [exact Hy|]. unfold desc. intros; simpl in *; lia.
Qed.

Lemma sort_desc_sorted l : StronglySorted desc (sort_desc l).
Proof.
  induction l as [|x l IH]; simpl; [constructor|].
  by apply insert_desc_sorted.
Qed.

(** A stable sort leaves a sorted list as it is. *)
Lemma sort_desc_id l : StronglySorted desc l → sort_desc l = l.
Proof.
  induction l as [|x l IH]; simpl; [done|].
  intros [Hx Hl]%StronglySorted_cons. rewrite IH by done.
  destruct l as [|y l]; simpl; [done|].
  apply Forall_cons in Hx as [Hxy _].
  rewrite bool_decide_eq_false_2; [done|]. unfold desc in Hxy. lia.
Qed.

(** Reading [StronglySorted] by positions. *)
Lemma StronglySorted_lookup {A} (R : relation A) l i j x y :
  StronglySorted R l → (i < j)%nat → l !! i = Some x → l !! j = Some y → R x y.
Proof.
  intros Hl. revert i j. induction Hl as [|a l Hl IH Ha]; intros i j Hij Hi Hj.
  - done.
  - destruct j as [|j]; [lia|]. destruct i as [|i]; simpl in *.
    + injection Hi as <-. rewrite Forall_forall in Ha.
      apply Ha. by eapply list_elem_of_lookup_2.
    + eapply IH; [|done..]. lia.
Qed.

Lemma StronglySorted_perm_sym {A} (R : relation A) `{!Symmetric R} l1 l2 :
  l1 ≡ₚ l2 → StronglySorted R l1 → StronglySorted R l2.
Proof.
  induction 1 as [|x l1 l2 Hp IH|x y l|l1 l2 l3 _ IH1 _ IH2]; [done| | |auto].
  - rewrite !StronglySorted_cons. intros [Hx Hl]. split; [by rewrite <- Hp|auto].
  - rewrite !StronglySorted_cons, !Forall_cons.
    intros [[Hyx Hy] [Hx Hl]]. split_and!; [by symmetry|done..].
Qed.

Lemma sort_desc_sorted_descending l : sorted_descending (sort_desc l).
Proof.
  intros i x y Hx Hy.
  pose proof (StronglySorted_lookup desc _ i (S i) x y (sort_desc_sorted l)) as H.
  apply H; [lia|done..].
Qed.

(** Element-wise bounds survive the sort. *)
Lemma Forall_sort_desc (P : FolderGroup → Prop) l :
  Forall P l → Forall P (sort_desc l).
Proof. by rewrite sort_desc_perm. Qed.

(** * The nesting predicate *)

Lemma prefix_begins_with p s : String.prefix p s = true ↔ begins_with s p.
Proof.
  revert s. induction p as [|c p IH]; intros s; simpl.
  - split; [intros _; by exists s|]. by destruct s.
  - destruct s as [|c' s].
    + split; [done|]. intros [r Hr]. discriminate.
    + simpl. destruct (Ascii.ascii_dec c c') as [->|Hne].
      * rewrite IH. split; intros [r Hr]; exists r.
        -- by rewrite Hr.
        -- by injection Hr.
      * split; [done|]. intros [r Hr]. by injection Hr.
Qed.

Lemma is_nested_spec a b :
  is_nested a b = true ↔ begins_with a (b +:+ "/") ∨ begins_with b (a +:+ "/").
Proof. unfold is_nested. by rewrite orb_true_iff, !prefix_begins_with. Qed.

Lemma should_merge_mergeable g1 g2 : should_merge g1 g2 = true ↔ mergeable g1 g2.
Proof.
  unfold should_merge, mergeable, nested_or_identical.
  rewrite existsb_exists. split.
  - intros (a & Ha & Hex). apply existsb_exists in Hex as (b & Hb & Hab).
    exists a, b. rewrite <- !list_elem_of_In, !elem_of_elements in *.
    apply orb_true_iff in Hab as [Heq%bool_decide_eq_true|Hn%is_nested_spec];
      naive_solver.
  - intros (a & b & Ha & Hb & Hab). exists a.
    rewrite <- list_elem_of_In, elem_of_elements. split; [done|].
    apply existsb_exists. exists b.
    rewrite <- list_elem_of_In, elem_of_elements. split; [done|].
    apply orb_true_iff. rewrite bool_decide_eq_true, is_nested_spec.
    naive_solver.
Qed.

Lemma mergeable_sym g1 g2 : mergeable g1 g2 → mergeable g2 g1.
Proof.
  intros (a & b & Ha & Hb & Hab). exists b, a.
  unfold nested_or_identical in *. naive_solver.
Qed.

Lemma should_merge_sym g1 g2 : should_merge g1 g2 = should_merge g2 g1.
Proof.
  apply eq_true_iff_eq. rewrite !should_merge_mergeable.
  split; apply mergeable_sym.
Qed.

Global Instance separate_sym : Symmetric separate.
Proof. intros g1 g2. unfold separate. by rewrite should_merge_sym. Qed.

Lemma mergeable_mono_l g1 g1' g2 :
  folders g1 ⊆ folders g1' → mergeable g1 g2 → mergeable g1' g2.
Proof. intros Hsub (a & b & Ha & Hb & Hab). exists a, b. set_solver. Qed.

(** * One scan of the merge loop *)

Lemma merge_first_Some gi rest merged rest' :
  merge_first gi rest = Some (merged, rest') →
  ∃ mid gj post,
    rest = mid ++ gj :: post ∧ rest' = mid ++ post ∧
    merged = merge_groups gi gj ∧ should_merge gi gj = true ∧
    Forall (separate gi) mid.
Proof.
  revert merged rest'. induction rest as [|g rest IH]; intros merged rest'; simpl.
  - done.
  - destruct (should_merge gi g) eqn:E.
    + intros [= <- <-]. by exists [], g, rest.
    + destruct (merge_first gi rest) as [[merged0 rest0]|]; simpl; [|done].
      intros [= <- <-].
      destruct (IH _ _ eq_refl) as (mid & gj & post & -> & -> & -> & Hm & Hsep).
      exists (g :: mid), gj, post. split_and!; try done. by constructor.
Qed.

Lemma merge_first_None gi rest :
  merge_first gi rest = None ↔ Forall (separate gi) rest.
Proof.
  induction rest as [|g rest IH]; simpl.
  - split; [constructor|done].
  - rewrite Forall_cons. unfold separate at 1.
    destruct (should_merge gi g).
    + split; [done|]. by intros [? _].
    + destruct (merge_first gi rest) as [[merged0 rest0]|]; simpl.
      * split; [done|]. intros [_ H]. by apply IH in H.
      * split; [|done]. intros _. split; [done|]. by apply IH.
Qed.

Lemma merge_pass_Some groups groups' :
  merge_pass groups = Some groups' →
  ∃ pre gi mid gj post,
    groups = pre ++ gi :: mid ++ gj :: post ∧
    groups' = pre ++ merge_groups gi gj :: mid ++ post ∧
    should_merge gi gj = true.
Proof.
  revert groups'. induction groups as [|g groups IH]; intros groups'; simpl.
  - done.
  - destruct (merge_first g groups) as [[merged rest']|] eqn:E.
    + intros [= <-].
      apply merge_first_Some in E as (mid & gj & post & -> & -> & -> & Hm & _).
      by exists [], g, mid, gj, post.
    + destruct (merge_pass groups) as [groups0|]; simpl; [|done].
      intros [= <-].
      destruct (IH _ eq_refl) as (pre & gi & mid & gj & post & -> & -> & Hm).
      by exists (g :: pre), gi, mid, gj, post.
Qed.

Lemma merge_pass_None groups :
  merge_pass groups = None ↔ StronglySorted separate groups.
Proof.
  induction groups as [|g groups IH]; simpl.
  - split; [constructor|done].
  - rewrite StronglySorted_cons, <- IH, <- merge_first_None.
    destruct (merge_first g groups) as [[merged rest']|]; simpl.
    + split; [done|]. by intros [? _].
    + destruct (merge_pass groups); simpl; naive_solver.
Qed.

(** Every merge removes exactly one group. *)
Lemma merge_pass_length groups groups' :
  merge_pass groups = Some groups' → length groups = S (length groups').
Proof.
  intros (pre & gi & mid & gj & post & -> & -> & _)%merge_pass_Some.
  rewrite !length_app. simpl. rewrite !length_app. simpl. lia.
Qed.

(** * The merge loop *)

Lemma merge_loop_total fuel groups :
  (length groups ≤ fuel)%nat → groups ≠ [] →
  ∃ out, merge_loop fuel groups = Some out.
Proof.
  revert groups. induction fuel as [|fuel IH]; intros groups Hlen Hne.
  - destruct groups; [done|simpl in Hlen; lia].
  - simpl. destruct (merge_pass groups) as [groups'|] eqn:E; [|by eexists].
    pose proof (merge_pass_length _ _ E) as Hl.
    apply IH; [lia|].
    apply merge_pass_Some in E as (pre & gi & mid & gj & post & _ & -> & _).
    by destruct pre.
Qed.

(** More fuel than needed does not change the result. *)
Lemma merge_loop_fuel_mono fuel fuel' groups out :
  merge_loop fuel groups = Some out → (fuel ≤ fuel')%nat →
  merge_loop fuel' groups = Some out.
Proof.
  revert fuel' groups. induction fuel as [|fuel IH]; intros fuel' groups; [done|].
  intros Hrun Hle. destruct fuel' as [|fuel']; [lia|]. simpl in *.
  destruct (merge_pass groups); [|done]. apply IH; [done|lia].
Qed.

(** Invariants of single merges carry over to the result of the loop, which
    moreover admits no further merge. *)
Lemma merge_loop_invariant (P : list FolderGroup → Prop) fuel groups out :
  (∀ gs gs', P gs → merge_pass gs = Some gs' → P gs') →
  P groups → merge_loop fuel groups = Some out →
  P out ∧ merge_pass out = None.
Proof.
  intros Hstep. revert groups. induction fuel as [|fuel IH]; intros groups HP; [done|].
  simpl. destruct (merge_pass groups) as [groups'|] eqn:E.
  - apply IH. by eapply Hstep.
  - by intros [= <-].
Qed.

(** * [compact_nested_folders] as a whole *)

Lemma merge_loop_final fuel groups :
  (length groups ≤ fuel)%nat → groups ≠ [] →
  ∃ final,
    merge_loop fuel groups = Some final ∧ merge_pass final = None ∧
    ∀ P : list FolderGroup → Prop,
      (∀ gs gs', P gs → merge_pass gs = Some gs' → P gs') → P groups → P final.
Proof.
  intros Hlen Hne. destruct (merge_loop_total fuel groups Hlen Hne) as [final Hrun].
  exists final. split_and!; [done| |].
  - by eapply (merge_loop_invariant (λ _, True)).
  - intros P Hstep HP. by eapply (merge_loop_invariant P).
Qed.

(** The function returns; what it returns is the sorted final state of the
    loop, which admits no merge and inherits every invariant of merging. *)
Lemma compact_nested_folders_run groups :
  ∃ final,
    (∀ fuel, (length groups ≤ fuel)%nat →
             compact_nested_folders_fuel fuel groups = Some (sort_desc final)) ∧
    merge_pass final = None ∧
    ∀ P : list FolderGroup → Prop,
      (∀ gs gs', P gs → merge_pass gs = Some gs' → P gs') → P groups → P final.
Proof.
  destruct groups as [|g groups].
  - exists []. by split_and!.
  - destruct (merge_loop_final (length (g :: groups)) (g :: groups))
      as (final & Hrun & Hnone & Hinv); [done..|].
    exists final. split_and!; [|done..].
    intros fuel Hfuel. unfold compact_nested_folders_fuel.
    by rewrite (merge_loop_fuel_mono _ fuel _ _ Hrun Hfuel).
Qed.

Lemma compact_nested_folders_spec groups :
  ∃ final,
    compact_nested_folders groups = Some (sort_desc final) ∧
    merge_pass final = None ∧
    ∀ P : list FolderGroup → Prop,
      (∀ gs gs', P gs → merge_pass gs = Some gs' → P gs') → P groups → P final.
Proof.
  destruct (compact_nested_folders_run groups) as (final & Hrun & Hrest).
  exists final. split; [|done]. by apply Hrun.
Qed.

Lemma sort_desc_separate final :
  merge_pass final = None → StronglySorted separate (sort_desc final).
Proof.
  intros H%merge_pass_None.
  eapply (StronglySorted_perm_sym separate); [|done]. by rewrite sort_desc_perm.
Qed.

(** A list without mergeable pair is a fixed point of the function. *)
Lemma compact_nested_folders_fixed groups :
  StronglySorted separate groups → StronglySorted desc groups →
  compact_nested_folders groups = Some groups.
Proof.
  intros Hsep Hsorted. destruct groups as [|g groups]; [done|].
  unfold compact_nested_folders, compact_nested_folders_fuel.
  cbn [length merge_loop]. rewrite (proj2 (merge_pass_None _) Hsep).
  change (Some (sort_desc (g :: groups)) = Some (g :: groups)).
  f_equal. by apply sort_desc_id.
Qed.

(** * The invariant of the pipeline *)

Section group_by_flatten.
Context {A K : Type} `{EqDecision K} (key : A → K).

Lemma dict_alter_snoc_join (x : A) k (d : list (K * list A)) :
  k ∈ d.*1 → mjoin (dict_alter (λ l, l ++ [x]) k d).*2 ≡ₚ x :: mjoin d.*2.
Proof.
  induction d as [|[k' l'] d IH]; csimpl.
  - by intros ?%elem_of_nil.
  - intros Hin. case_decide; csimpl.
    + rewrite <- app_assoc. simpl. by rewrite <- Permutation_middle.
    + apply elem_of_cons in Hin as [|Hin]; [congruence|].
      rewrite IH by done. by rewrite Permutation_middle.
Qed.

Lemma group_step_join (x : A) (d : list (K * list A)) :
  mjoin (group_step key d x).*2 ≡ₚ x :: mjoin d.*2.
Proof.
  unfold group_step. destruct (decide (key x ∈ d.*1)).
  - rewrite defaultdict_update_present by done. by apply dict_alter_snoc_join.
  - rewrite defaultdict_update_fresh by done.
    rewrite fmap_app, join_app. csimpl. by rewrite <- Permutation_cons_append.
Qed.

Lemma group_fold_join xs (d : list (K * list A)) :
  mjoin (fold_left (group_step key) xs d).*2 ≡ₚ mjoin d.*2 ++ xs.
Proof.
  revert d. induction xs as [|x xs IH]; intros d; simpl.
  - by rewrite app_nil_r.
  - rewrite IH, group_step_join. simpl. apply Permutation_middle.
Qed.

(** Grouping only rearranges: flattening the groups gives back the list. *)
Lemma group_by_join xs : mjoin (group_by key xs).*2 ≡ₚ xs.
Proof. unfold group_by. by rewrite group_fold_join. Qed.
End group_by_flatten.

Lemma all_keys_cons g gs : all_keys (g :: gs) = (shared_files g).*1 ++ all_keys gs.
Proof. done. Qed.

Lemma all_keys_app gs1 gs2 : all_keys (gs1 ++ gs2) = all_keys gs1 ++ all_keys gs2.
Proof. apply bind_app. Qed.

Lemma all_keys_make_group (rel : list (gset string * list (string * list DuplicateFile))) :
  all_keys (make_group <$> rel) = (mjoin rel.*2).*1.
Proof.
  induction rel as [|[fs shared] rel IH]; [done|].
  rewrite fmap_cons, all_keys_cons, IH. csimpl. by rewrite fmap_app.
Qed.

Lemma folder_relationships_keys_NoDup files :
  NoDup (all_keys (make_group <$> folder_relationships files)).
Proof.
  rewrite all_keys_make_group, folder_relationships_group_by, group_by_join.
  eapply sublist_NoDup; [apply (group_by_NoDup group_id files)|].
  apply fmap_sublist, sublist_filter.
Qed.

Lemma holds_clusters_make_group files fs shared :
  (fs, shared) ∈ folder_relationships files →
  holds_clusters files (make_group (fs, shared)).
Proof.
  intros [-> _]%elem_of_folder_relationships. split; [|done]. simpl.
  do 2 apply Forall_list_filter. apply Forall_forall. intros [k l] Hin. simpl.
  by apply elem_of_group_by in Hin.
Qed.

(** The groups before the final sort. *)
Lemma pipeline_inv_filter m files :
  pipeline_inv files
    (filter (λ g, m ≤ total_shared_size g) (make_group <$> folder_relationships files)).
Proof.
  split.
  - eapply sublist_NoDup; [apply folder_relationships_keys_NoDup|].
    apply bind_sublist, sublist_filter.
  - apply Forall_list_filter, Forall_fmap, Forall_forall.
    intros [fs shared]. apply holds_clusters_make_group.
Qed.

Lemma pipeline_inv_perm files gs1 gs2 :
  gs1 ≡ₚ gs2 → pipeline_inv files gs1 → pipeline_inv files gs2.
Proof. unfold pipeline_inv, all_keys. by intros ->. Qed.

(** Merging two groups with disjoint keys appends the dictionaries. *)
Lemma merge_shared_files_disjoint
    (files_i files_j : list (string * list DuplicateFile)) :
  NoDup (files_i.*1 ++ files_j.*1) →
  merge_shared_files files_i files_j = files_i ++ files_j.
Proof.
  unfold merge_shared_files. revert files_i.
  induction files_j as [|[gid l] files_j IH]; intros files_i Hnd; simpl.
  - by rewrite app_nil_r.
  - assert (gid ∉ files_i.*1) as Hfresh.
    { apply NoDup_app in Hnd as (_ & Hnd & _). intros Hin.
      apply (Hnd gid Hin). left. }
    rewrite (proj2 (dict_mem_false _ _) Hfresh), dict_set_notin by done.
    rewrite IH; [by rewrite <- app_assoc|].
    rewrite fmap_app. csimpl. by rewrite <- app_assoc.
Qed.

Lemma total_of_app shared1 shared2 :
  total_of (shared1 ++ shared2) = total_of shared1 + total_of shared2.
Proof. unfold total_of. by rewrite !fmap_app, Zsum_app. Qed.

Lemma wasted_of_app shared1 shared2 :
  wasted_of (shared1 ++ shared2) = wasted_of shared1 + wasted_of shared2.
Proof. unfold wasted_of. by rewrite !fmap_app, Zsum_app. Qed.

Lemma holds_clusters_merge files gi gj :
  NoDup ((shared_files gi).*1 ++ (shared_files gj).*1) →
  holds_clusters files gi → holds_clusters files gj →
  shared_files (merge_groups gi gj) = shared_files gi ++ shared_files gj ∧
  holds_clusters files (merge_groups gi gj).
Proof.
  intros Hnd (Hci & Hti & Hwi) (Hcj & Htj & Hwj).
  assert (shared_files (merge_groups gi gj) = shared_files gi ++ shared_files gj)
    as Heq by by apply merge_shared_files_disjoint.
  split; [done|]. unfold holds_clusters. rewrite Heq.
  split_and!.
  - by apply Forall_app.
  - simpl. rewrite total_of_app. lia.
  - simpl. rewrite wasted_of_app. lia.
Qed.

(** One merge maintains the invariant. *)
Lemma pipeline_inv_merge_pass files gs gs' :
  pipeline_inv files gs → merge_pass gs = Some gs' → pipeline_inv files gs'.
Proof.
  intros [Hnd Hall] (pre & gi & mid & gj & post & -> & -> & _)%merge_pass_Some.
  rewrite !Forall_app, !Forall_cons, !Forall_app, !Forall_cons in Hall.
  destruct Hall as (Hpre & Hgi & Hmid & Hgj & Hpost).
  assert (all_keys (pre ++ gi :: mid ++ gj :: post) ≡ₚ
          all_keys pre ++ ((shared_files gi).*1 ++ (shared_files gj).*1) ++
          all_keys mid ++ all_keys post) as Hperm.
  { rewrite all_keys_app, all_keys_cons, all_keys_app, all_keys_cons.
    apply Permutation_app_head. rewrite <- !app_assoc.
    apply Permutation_app_head.
    rewrite !app_assoc. apply Permutation_app_tail, Permutation_app_comm. }
  rewrite Hperm in Hnd.
  assert (NoDup ((shared_files gi).*1 ++ (shared_files gj).*1)) as Hij.
  { apply NoDup_app in Hnd as (_ & _ & Hnd). by apply NoDup_app in Hnd as (? & _). }
  destruct (holds_clusters_merge files gi gj Hij Hgi Hgj) as [Heq Hm].
  split.
  - rewrite all_keys_app, all_keys_cons, all_keys_app, Heq, fmap_app. done.
  - rewrite !Forall_app, !Forall_cons, !Forall_app. by split_and!.
Qed.

(** * From the invariant to the recomputed metrics *)

Lemma all_keys_elem_NoDup gs g :
  NoDup (all_keys gs) → g ∈ gs → NoDup (shared_files g).*1.
Proof.
  intros Hnd (l1 & l2 & ->)%list_elem_of_split.
  rewrite all_keys_app, all_keys_cons in Hnd.
  apply NoDup_app in Hnd as (_ & _ & Hnd). by apply NoDup_app in Hnd as (? & _).
Qed.

Lemma elem_of_cluster files k f :
  f ∈ cluster files k ↔ group_id f = k ∧ f ∈ files.
Proof. unfold cluster. by rewrite list_elem_of_filter. Qed.

(** Under the size invariant, every record of a cluster has the size of
    the first one. *)
Lemma cluster_size_elem files k f :
  equal_size_per_group files → f ∈ cluster files k → size f = cluster_size files k.
Proof.
  intros Heq Hf. unfold cluster_size, head_size.
  destruct (cluster files k) as [|f0 l] eqn:E; [by apply elem_of_nil in Hf|].
  simpl. assert (f0 ∈ cluster files k) as Hf0 by (rewrite E; left).
  rewrite <- E in Hf.
  apply elem_of_cluster in Hf as [Hk Hin], Hf0 as [Hk0 Hin0].
  apply Heq; congruence.
Qed.

Lemma total_of_recomputed files shared :
  Forall (λ c, c.2 = cluster files c.1 ∧ c.2 ≠ []) shared →
  total_of shared = recomputed_total files shared ∧
  wasted_of shared = recomputed_wasted files shared.
Proof.
  unfold total_of, recomputed_total, wasted_of, recomputed_wasted, cluster_size.
  induction 1 as [|[k l] shared [Hl _] _ [IHt IHw]]; [done|].
  simpl in Hl. csimpl. rewrite IHt, IHw, <- Hl. done.
Qed.

Lemma holds_clusters_consistent files g :
  equal_size_per_group files → NoDup (shared_files g).*1 →
  holds_clusters files g → consistent files g.
Proof.
  intros Heq Hnd (Hc & Ht & Hw).
  destruct (total_of_recomputed files _ Hc) as [Ht' Hw'].
  split_and!; [done| |congruence..].
  intros k l Hin. rewrite Forall_forall in Hc.
  destruct (Hc _ Hin) as [Hl Hne]. simpl in *. split; [done|].
  intros f Hf. rewrite Hl in Hf.
  pose proof (cluster_size_elem files k f Heq Hf).
  apply elem_of_cluster in Hf as [? ?]. done.
Qed.

Lemma pipeline_inv_consistent files gs g :
  equal_size_per_group files → pipeline_inv files gs → g ∈ gs →
  consistent files g.
Proof.
  intros Heq [Hnd Hall] Hg. apply holds_clusters_consistent; [done|..].
  - by eapply all_keys_elem_NoDup.
  - rewrite Forall_forall in Hall. auto.
Qed.

Lemma pipeline_inv_analyze m files out :
  analyze_folder_groups m files = Some out → pipeline_inv files out.
Proof.
  rewrite analyze_folder_groups_closed. intros [= <-].
  eapply pipeline_inv_perm; [symmetry; apply sort_desc_perm|].
  apply pipeline_inv_filter.
Qed.

Lemma pipeline_inv_compact files gs out :
  pipeline_inv files gs → compact_nested_folders gs = Some out →
  pipeline_inv files out.
Proof.
  intros Hinv Hrun.
  destruct (compact_nested_folders_spec gs) as (final & Hfinal & _ & Hkeep).
  rewrite Hfinal in Hrun. injection Hrun as <-.
  eapply pipeline_inv_perm; [symmetry; apply sort_desc_perm|].
  apply Hkeep; [|done]. apply pipeline_inv_merge_pass.
Qed.

(** * Clusters confined to one folder *)

Lemma filter_ext_elem {A} (P Q : A → Prop) `{∀ x, Decision (P x), ∀ x, Decision (Q x)}
    (l : list A) :
  (∀ x, x ∈ l → P x ↔ Q x) → filter P l = filter Q l.
Proof.
  induction l as [|x l IH]; intros Hext; [done|].
  rewrite !filter_cons.
  pose proof (Hext x (list_elem_of_here _ _)).
  rewrite IH by (intros; apply Hext; by right).
  destruct (decide (P x)), (decide (Q x)); naive_solver.
Qed.

Lemma groups_by_id_filter files k :
  groups_by_id (filter (λ f, group_id f ≠ k) files) =
  filter (λ c, c.1 ≠ k) (groups_by_id files).
Proof. apply (group_by_filter group_id). Qed.

Lemma spans_folders_groups_by_id files k l :
  (k, l) ∈ filter spans_folders (groups_by_id files) →
  l = cluster files k ∧ (1 < base.size (folder_set (cluster files k)))%nat.
Proof.
  intros [Hs Hin]%list_elem_of_filter.
  apply elem_of_group_by in Hin as [-> _]. done.
Qed.

(** A cluster that does not span two folders leaves no trace in
    [folder_relationships]. *)
Lemma folder_relationships_drop_cluster files k :
  ¬ (1 < base.size (folder_set (cluster files k)))%nat →
  folder_relationships (filter (λ f, group_id f ≠ k) files) =
  folder_relationships files.
Proof.
  intros Hone. rewrite !folder_relationships_group_by.
  rewrite <- !groups_by_id_group_by, groups_by_id_filter. f_equal.
  rewrite list_filter_filter. apply filter_ext_elem.
  intros [k' l'] Hin. simpl. split; [naive_solver|].
  intros Hs. split; [done|]. intros ->.
  apply elem_of_group_by in Hin as [-> _]. done.
Qed.

Lemma elem_of_analyze_folder_groups m files out g :
  analyze_folder_groups m files = Some out → g ∈ out →
  ∃ fs shared, g = make_group (fs, shared) ∧ m ≤ total_shared_size g ∧
               (fs, shared) ∈ folder_relationships files.
Proof.
  rewrite analyze_folder_groups_closed. intros [= <-].
  rewrite sort_desc_perm. intros [Hm Hin]%list_elem_of_filter.
  apply list_elem_of_fmap in Hin as ([fs shared] & -> & Hin). eauto.
Qed.

Lemma shared_files_spanning m files out g k l :
  analyze_folder_groups m files = Some out → g ∈ out → (k, l) ∈ shared_files g →
  l = cluster files k ∧ (1 < base.size (folder_set (cluster files k)))%nat ∧
  folders g = folder_set (cluster files k).
Proof.
  intros Hrun Hg Hkl.
  destruct (elem_of_analyze_folder_groups _ _ _ _ Hrun Hg) as (fs & shared & -> & _ & Hin).
  apply elem_of_folder_relationships in Hin as [-> _]. simpl in *.
  apply list_elem_of_filter in Hkl as [Hfs Hkl].
  apply spans_folders_groups_by_id in Hkl as [-> Hs].
  unfold cluster_folders in Hfs. simpl in Hfs. done.
Qed.

(** * Checking the size invariant on a concrete list *)

Lemma equal_size_per_group_Forall files :
  Forall (λ f1, Forall (λ f2, group_id f1 = group_id f2 → size f1 = size f2) files) files →
  equal_size_per_group files.
Proof.
  intros H f1 f2 H1 H2. rewrite Forall_forall in H.
  specialize (H f1 H1). rewrite Forall_forall in H. by apply H.
Qed.

Lemma equal_size_per_group_test_files : equal_size_per_group test_files.
Proof. apply equal_size_per_group_Forall, (bool_decide_unpack _). by vm_compute. Qed.

(** * Chains of mergeable groups *)

Lemma separate_lookup (l : list FolderGroup) i j gi gj :
  StronglySorted separate l → i ≠ j → l !! i = Some gi → l !! j = Some gj →
  ¬ mergeable gi gj.
Proof.
  intros Hl Hij Hi Hj Hm. apply should_merge_mergeable in Hm.
  destruct (decide (i < j)%nat).
  - pose proof (StronglySorted_lookup separate l i j gi gj Hl) as H.
    unfold separate in H. rewrite H in Hm by (done || lia). done.
  - pose proof (StronglySorted_lookup separate l j i gj gi Hl) as H.
    unfold separate in H. rewrite should_merge_sym, H in Hm by (done || lia). done.
Qed.

Lemma should_merge_common_folder g1 g2 a :
  a ∈ folders g1 → a ∈ folders g2 → should_merge g1 g2 = true.
Proof.
  intros H1 H2. apply should_merge_mergeable. exists a, a.
  split_and!; [done..|]. by left.
Qed.

(** A merged group is mergeable with whatever one of its parts was. *)
Lemma should_merge_merge_groups ga gb gc :
  should_merge ga gc || should_merge gb gc = true →
  should_merge (merge_groups ga gb) gc = true.
Proof.
  intros H. apply should_merge_mergeable.
  apply orb_true_iff in H as [H|H]; apply should_merge_mergeable in H.
  - apply (mergeable_mono_l ga); [simpl; set_solver|done].
  - apply (mergeable_mono_l gb); [simpl; set_solver|done].
Qed.

(** Three groups of which at least two pairs are mergeable end up as one. *)
Lemma compact_three ga gb gc :
  (should_merge ga gb && should_merge ga gc) ||
  (should_merge ga gb && should_merge gb gc) ||
  (should_merge ga gc && should_merge gb gc) = true →
  ∃ g, compact_nested_folders [ga; gb; gc] = Some [g] ∧
       folders g = folders ga ∪ folders gb ∪ folders gc.
Proof.
  intros H. unfold compact_nested_folders, compact_nested_folders_fuel.
  cbn [length merge_loop merge_pass merge_first].
  destruct (should_merge ga gb) eqn:Eab.
  - cbn [merge_loop merge_pass merge_first].
    rewrite should_merge_merge_groups
      by (by destruct (should_merge ga gc), (should_merge gb gc)).
    cbn. eexists. split; [done|]. done.
  - destruct (should_merge ga gc) eqn:Eac; [|done].
    simpl in H. cbn [merge_loop merge_pass merge_first mbind option_bind].
    rewrite should_merge_merge_groups
      by (by rewrite (should_merge_sym gc gb), H, orb_true_r).
    cbn. eexists. split; [done|]. simpl. set_solver.
Qed.

Lemma chain_groups_collapse A B C x shared1 shared2 shared3
    total1 wasted1 total2 wasted2 total3 wasted3 :
  Forall (λ gs, ∃ g, compact_nested_folders gs = Some [g] ∧
                     folders g = {[ A; A +:+ "/" +:+ x; B; C ]})
    (permutations (chain_groups A B C x shared1 shared2 shared3
                     total1 wasted1 total2 wasted2 total3 wasted3)).
Proof.
  unfold chain_groups.
  set (g1 := {| folders := {[ A; A +:+ "/" +:+ x ]} |}).
  set (g2 := {| folders := {[ A +:+ "/" +:+ x; B ]} |}).
  set (g3 := {| folders := {[ B; C ]} |}).
  assert (should_merge g1 g2 = true) as H12
    by (apply (should_merge_common_folder _ _ (A +:+ "/" +:+ x)); set_solver).
  assert (should_merge g2 g3 = true) as H23
    by (apply (should_merge_common_folder _ _ B); set_solver).
  assert (should_merge g2 g1 = true) as H21 by by rewrite should_merge_sym.
  assert (should_merge g3 g2 = true) as H32 by by rewrite should_merge_sym.
  assert (∀ ga gb gc, 
    (should_merge ga gb && should_merge ga gc) ||
    (should_merge ga gb && should_merge gb gc) ||
    (should_merge ga gc && should_merge gb gc) = true →
    folders ga ∪ folders gb ∪ folders gc = {[ A; A +:+ "/" +:+ x; B; C ]} →
    ∃ g, compact_nested_folders [ga; gb; gc] = Some [g] ∧
         folders g =  {[ A; A +:+ "/" +:+ x; B; C ]}) as Hthree.
  { intros ga gb gc H Hf. destruct (compact_three ga gb gc H) as (g & ? & ?).
    exists g. split; [done|]. congruence. }
  cbn [permutations interleave fmap list_fmap mbind list_bind app].
  repeat apply Forall_cons_2; [..|apply Forall_nil_2];
    (apply Hthree;
    [rewrite ?H12, ?H23, ?H21, ?H32; simpl;
     repeat match goal with
       | |- context [should_merge ?a ?b] => destruct (should_merge a b)
       end; reflexivity
    |simpl; set_solver]).
Qed.

(** * Rearrangements up to a relation *)

Section perm_upto.
Context {A : Type}.
Implicit Types (R : A → A → Prop) (l : list A).

Lemma perm_upto_of_perm l1 l2 : l1 ≡ₚ l2 → perm_upto eq l1 l2.
Proof. intros H. exists l2. split; [done|]. by apply list_eq_Forall2. Qed.

Lemma perm_upto_eq l1 l2 : perm_upto eq l1 l2 → l1 ≡ₚ l2.
Proof. intros (l & Hp & ->%list_eq_Forall2). done. Qed.

Lemma perm_upto_nil_r R l : perm_upto R l [] → l = [].
Proof. intros (l' & Hp & ->%Forall2_nil_inv_r). by apply Permutation_nil_r. Qed.

Lemma perm_upto_nil_l R l : perm_upto R [] l → l = [].
Proof.
  intros (l' & Hp & HF). apply Permutation_nil_l in Hp as <-.
  by apply Forall2_nil_inv_l in HF.
Qed.

Lemma perm_upto_filter R (P Q : A → Prop)
    `{∀ x, Decision (P x), ∀ x, Decision (Q x)} l1 l2 :
  (∀ x y, R x y → P x ↔ Q y) →
  perm_upto R l1 l2 → perm_upto R (filter P l1) (filter Q l2).
Proof.
  intros HPQ (l & Hp & HF). exists (filter P l). split.
  - by rewrite Hp.
  - by apply Forall2_filter.
Qed.

Lemma perm_upto_fmap {B} R (f g : A → B) l1 l2 :
  (∀ x y, R x y → f x = g y) → perm_upto R l1 l2 → f <$> l1 ≡ₚ g <$> l2.
Proof.
  intros Hfg (l & Hp & HF). rewrite Hp.
  clear Hp. induction HF as [|x y l l2 HR _ IH]; csimpl; [done|].
  rewrite (Hfg x y HR). by apply Permutation_skip.
Qed.

End perm_upto.

(** * Dictionaries up to order *)

Section dict_rel.
Context {K V : Type} `{EqDecision K}.
Implicit Types (R : V → V → Prop) (d : list (K * V)) (k : K).

Lemma dict_get_perm k d1 d2 :
  NoDup d1.*1 → d1 ≡ₚ d2 → dict_get k d1 = dict_get k d2.
Proof.
  intros Hnd Hp. assert (NoDup d2.*1) as Hnd2 by by rewrite <- Hp.
  destruct (dict_get k d1) as [v|] eqn:E.
  - symmetry. apply dict_get_NoDup; [done|].
    rewrite <- Hp. by apply dict_get_elem_of.
  - symmetry. apply dict_get_None. rewrite <- Hp. by apply dict_get_None.
Qed.

Lemma dict_get_Forall2 R k d1 d2 :
  Forall2 (entry_rel R) d1 d2 →
  option_Forall2 R (dict_get k d1) (dict_get k d2).
Proof.
  induction 1 as [|[k1 v1] [k2 v2] d1 d2 [Hk Hv] _ IH]; simpl; [constructor|].
  simpl in Hk, Hv. subst k2. case_decide; [by constructor|done].
Qed.

Lemma perm_upto_dict_rel R d1 d2 :
  NoDup d1.*1 → perm_upto (entry_rel R) d1 d2 → dict_rel R d1 d2.
Proof.
  intros Hnd (d & Hp & HF) k.
  rewrite (dict_get_perm k d1 d Hnd Hp). by apply dict_get_Forall2.
Qed.

Lemma dict_get_remove_entry k k0 v d1 d2 :
  k0 ∉ (d1 ++ d2).*1 →
  dict_get k (d1 ++ (k0, v) :: d2) =
  if decide (k0 = k) then Some v else dict_get k (d1 ++ d2).
Proof.
  rewrite fmap_app, not_elem_of_app. intros [H1 H2].
  rewrite !dict_get_app. simpl. case_decide; subst.
  - by rewrite (proj2 (dict_get_None _ _) H1).
  - done.
Qed.

Lemma dict_rel_perm_upto R d1 d2 :
  NoDup d1.*1 → NoDup d2.*1 → dict_rel R d1 d2 →
  perm_upto (entry_rel R) d1 d2.
Proof.
  revert d1. induction d2 as [|[k2 v2] d2 IH]; intros d1 Hnd1 Hnd2 Hrel.
  - destruct d1 as [|[k1 v1] d1]; [by exists []|].
    specialize (Hrel k1). simpl in Hrel. rewrite decide_True in Hrel by done.
    inv Hrel.
  - csimpl in Hnd2. apply NoDup_cons in Hnd2 as [Hk2 Hnd2].
    pose proof (Hrel k2) as Hk. simpl in Hk. rewrite decide_True in Hk by done.
    inv Hk. rename x into v1.
    match goal with H : Some v1 = _ |- _ => symmetry in H; rename H into Hget end.
    apply dict_get_elem_of, list_elem_of_split in Hget as (l1 & l2 & ->).
    assert (k2 ∉ (l1 ++ l2).*1) as Hfresh.
    { rewrite fmap_app in Hnd1 |- *. csimpl in Hnd1.
      apply NoDup_app in Hnd1 as (_ & Hd & [Hd2 _]%NoDup_cons).
      rewrite not_elem_of_app. split; [|done].
      intros Hin. apply (Hd _ Hin). left. }
    assert (NoDup (l1 ++ l2).*1) as Hnd.
    { rewrite fmap_app in Hnd1 |- *. csimpl in Hnd1.
      apply NoDup_app in Hnd1 as (Hn1 & Hd & [_ Hn2]%NoDup_cons).
      apply NoDup_app. split_and!; [done| |done].
      intros x Hx Hx2. apply (Hd x Hx). by right. }
    assert (dict_rel R (l1 ++ l2) d2) as Hrel'.
    { intros k. specialize (Hrel k).
      rewrite dict_get_remove_entry in Hrel by done. simpl in Hrel.
      case_decide; [subst k|done].
      rewrite (proj2 (dict_get_None _ _) Hfresh), (proj2 (dict_get_None _ _) Hk2).
      constructor. }
    destruct (IH (l1 ++ l2) Hnd Hnd2 Hrel') as (d & Hp & HF).
    exists ((k2, v1) :: d). split.
    + by rewrite <- Permutation_middle, Hp.
    + by constructor.
Qed.
End dict_rel.

Lemma Forall2_perm_r {A} (R : A → A → Prop) l k k' :
  Forall2 R l k → k ≡ₚ k' → ∃ l', l ≡ₚ l' ∧ Forall2 R l' k'.
Proof.
  intros HF Hp. revert l HF.
  induction Hp as [|x k k' _ IH|x y k|k1 k2 k3 _ IH1 _ IH2]; intros l HF.
  - exists l. by split.
  - apply Forall2_cons_inv_r in HF as (a & l0 & HR & HF & ->).
    destruct (IH _ HF) as (l' & Hl' & HF'). exists (a :: l'). split.
    + by rewrite Hl'.
    + by constructor.
  - apply Forall2_cons_inv_r in HF as (a & l0 & Ha & HF & ->).
    apply Forall2_cons_inv_r in HF as (b & l1 & Hb & HF & ->).
    exists (b :: a :: l1). split; [apply perm_swap|]. by repeat constructor.
  - destruct (IH1 _ HF) as (l1 & Hl1 & HF1).
    destruct (IH2 _ HF1) as (l2 & Hl2 & HF2).
    exists l2. split; [by rewrite Hl1|done].
Qed.

Lemma perm_upto_perm {A} (R : A → A → Prop) l1 l1' l2 l2' :
  l1 ≡ₚ l1' → l2 ≡ₚ l2' → perm_upto R l1 l2 → perm_upto R l1' l2'.
Proof.
  intros H1 H2 (l & Hp & HF).
  destruct (Forall2_perm_r R l l2 l2' HF H2) as (l' & Hl' & HF').
  exists l'. split; [|done]. by rewrite <- H1, Hp.
Qed.

Lemma perm_upto_impl {A} (R R' : A → A → Prop) l1 l2 :
  (∀ x y, x ∈ l1 → y ∈ l2 → R x y → R' x y) →
  perm_upto R l1 l2 → perm_upto R' l1 l2.
Proof.
  intros Himpl (l & Hp & HF). exists l. split; [done|].
  assert (∀ x y, x ∈ l → y ∈ l2 → R x y → R' x y) as Himpl'.
  { intros x y Hx. apply Himpl. by rewrite Hp. }
  clear Hp Himpl. induction HF as [|x y l l2 HR HF IH]; [constructor|].
  constructor.
  - apply Himpl'; [left..|done].
  - apply IH. intros x' y' Hx' Hy'. apply Himpl'; by right.
Qed.

(** * Grouping respects rearrangement *)

Section group_by_perm.
Context {A K : Type} `{EqDecision K} (key : A → K) (R : A → A → Prop).
Hypothesis R_key : ∀ x y, R x y → key x = key y.

Lemma group_by_dict_rel xs ys :
  perm_upto R xs ys →
  dict_rel (perm_upto R) (group_by key xs) (group_by key ys).
Proof.
  intros H k. rewrite !dict_get_group_by.
  assert (perm_upto R (filter (λ x, key x = k) xs) (filter (λ x, key x = k) ys)) as Hk.
  { apply perm_upto_filter; [|done]. intros x y HR. by rewrite (R_key x y HR). }
  destruct (filter _ xs) as [|x xs'], (filter _ ys) as [|y ys'].
  - constructor.
  - by apply perm_upto_nil_l in Hk.
  - by apply perm_upto_nil_r in Hk.
  - by constructor.
Qed.

Lemma group_by_perm_upto xs ys :
  perm_upto R xs ys →
  perm_upto (entry_rel (perm_upto R)) (group_by key xs) (group_by key ys).
Proof.
  intros H. apply dict_rel_perm_upto; [apply group_by_NoDup..|].
  by apply group_by_dict_rel.
Qed.
End group_by_perm.

(** * [analyze_folder_groups] on a rearranged input *)

Lemma same_cluster_folders c c' :
  same_cluster c c' → cluster_folders c = cluster_folders c'.
Proof.
  intros [_ Hp%perm_upto_eq]. unfold cluster_folders, folder_set. by rewrite Hp.
Qed.

Lemma spanning_clusters_perm files files' :
  files ≡ₚ files' →
  perm_upto same_cluster (filter spans_folders (groups_by_id files))
                         (filter spans_folders (groups_by_id files')).
Proof.
  intros Hp. apply perm_upto_filter.
  - intros c c' Hc. unfold spans_folders.
    by rewrite (same_cluster_folders c c' Hc : folder_set c.2 = folder_set c'.2).
  - apply (group_by_perm_upto group_id eq); [by intros ?? ->|].
    by apply perm_upto_of_perm.
Qed.

Lemma folder_relationships_perm files files' :
  files ≡ₚ files' →
  perm_upto (entry_rel (perm_upto same_cluster))
    (folder_relationships files) (folder_relationships files').
Proof.
  intros Hp. rewrite !folder_relationships_group_by.
  apply (group_by_perm_upto cluster_folders same_cluster).
  - apply same_cluster_folders.
  - by apply spanning_clusters_perm.
Qed.

Lemma cluster_size_perm files files' k :
  equal_size_per_group files → files ≡ₚ files' →
  cluster_size files k = cluster_size files' k.
Proof.
  intros Heq Hp. assert (cluster files k ≡ₚ cluster files' k) as Hc
    by (unfold cluster; by rewrite Hp).
  unfold cluster_size at 2. unfold head_size.
  destruct (cluster files' k) as [|f0 l] eqn:E.
  - apply Permutation_nil_r in Hc. unfold cluster_size. by rewrite Hc.
  - simpl. symmetry. apply cluster_size_elem; [done|]. rewrite Hc. left.
Qed.

Lemma folder_relationships_entry_NoDup files fs shared :
  (fs, shared) ∈ folder_relationships files → NoDup shared.*1.
Proof.
  intros [-> _]%elem_of_folder_relationships.
  eapply sublist_NoDup; [apply (group_by_NoDup group_id files)|].
  apply fmap_sublist. etrans; apply sublist_filter.
Qed.

Lemma make_group_same files files' e e' :
  equal_size_per_group files → files ≡ₚ files' →
  e ∈ folder_relationships files → e' ∈ folder_relationships files' →
  entry_rel (perm_upto same_cluster) e e' →
  same_group (make_group e) (make_group e').
Proof.
  intros Heq Hp He He' [Hfs Hsh]. destruct e as [fs shared], e' as [fs' shared'].
  simpl in Hfs, Hsh.
  destruct (holds_clusters_make_group _ _ _ He) as (Hc & Ht & Hw).
  destruct (holds_clusters_make_group _ _ _ He') as (Hc' & Ht' & Hw').
  destruct (total_of_recomputed _ _ Hc) as [Hrt Hrw].
  destruct (total_of_recomputed _ _ Hc') as [Hrt' Hrw'].
  simpl in *. unfold same_group. simpl. split_and!; [done| | |].
  - rewrite Hrt, Hrt'. unfold recomputed_total. apply Zsum_perm.
    assert (shared.*1 ≡ₚ shared'.*1) as ->
      by (apply (perm_upto_fmap same_cluster); [by intros ?? [? _]|done]).
    erewrite list_fmap_ext; [done|]. intros i k _.
    by apply cluster_size_perm.
  - rewrite Hrw, Hrw'. unfold recomputed_wasted. apply Zsum_perm.
    apply (perm_upto_fmap same_cluster); [|done].
    intros [k l] [k' l'] [Hk Hl%perm_upto_eq]. simpl in *. subst k'.
    by rewrite Hl, (cluster_size_perm files files' k).
  - intros k.
    pose proof (perm_upto_dict_rel (perm_upto eq) shared shared'
                  (folder_relationships_entry_NoDup _ _ _ He) Hsh k) as Hk.
    destruct Hk as [l l' Hl%perm_upto_eq|]; by constructor.
Qed.

Lemma same_group_metrics g g' : same_group g g' → metrics g = metrics g'.
Proof. intros (Hf & Ht & Hw & _). unfold metrics. congruence. Qed.

(** The groups returned for a rearranged input are those returned for the
    input, up to the order of the groups and of the records of a cluster. *)
Lemma analyze_folder_groups_perm m files files' :
  equal_size_per_group files → files ≡ₚ files' →
  ∃ out out',
    analyze_folder_groups m files = Some out ∧
    analyze_folder_groups m files' = Some out' ∧
    perm_upto same_group out out'.
Proof.
  intros Heq Hp. rewrite !analyze_folder_groups_closed.
  eexists _, _. split_and!; [done..|].
  eapply perm_upto_perm; [symmetry; apply sort_desc_perm..|].
  apply perm_upto_filter; [intros g g' (_ & <- & _); done|].
  pose proof (folder_relationships_perm files files' Hp) as Hrel.
  apply (perm_upto_impl _
           (λ e e', same_group (make_group e) (make_group e'))) in Hrel.
  - destruct Hrel as (l & Hl & HF). exists (make_group <$> l). split.
    + by rewrite Hl.
    + by apply Forall2_fmap.
  - intros e e' He He'. by apply (make_group_same files files').
Qed.

(** * Two clusters over one pair of folders *)

Lemma two_clusters_relationships k1 k2 a b p1 p2 p3 p4 :
  k1 ≠ k2 → a ≠ b →
  folder_relationships (two_clusters k1 k2 a b p1 p2 p3 p4) =
  [ ({[ a; b ]},
     [ (k1, [mk k1 a p1 1000; mk k1 b p2 1000]);
       (k2, [mk k2 a p3 2000; mk k2 b p4 2000]) ]) ].
Proof.
  intros Hk Hab. rewrite folder_relationships_group_by.
  assert (group_by group_id (two_clusters k1 k2 a b p1 p2 p3 p4) =
          [ (k1, [mk k1 a p1 1000; mk k1 b p2 1000]);
            (k2, [mk k2 a p3 2000; mk k2 b p4 2000]) ]) as ->.
  { unfold group_by, two_clusters, group_step, defaultdict_update, defaultdict_touch.
    simpl. repeat (case_decide; try congruence; simpl). }
  assert (∀ k p s p' s',
            cluster_folders (k, [mk k a p s; mk k b p' s']) = {[ a; b ]}) as Hfs.
  { intros. unfold cluster_folders, folder_set. simpl. set_solver. }
  assert (∀ k p s p' s', spans_folders (k, [mk k a p s; mk k b p' s'])) as Hsp.
  { intros. unfold spans_folders.
    change (folder_set _) with (cluster_folders (k, [mk k a p s; mk k b p' s'])).
    rewrite Hfs, size_union, !size_singleton by set_solver. lia. }
  rewrite !filter_cons_True by apply Hsp. rewrite filter_nil.
  unfold group_by. simpl. unfold group_step. rewrite !Hfs.
  rewrite (defaultdict_update_fresh _ _ _ []) by (simpl; apply not_elem_of_nil).
  simpl.
  rewrite defaultdict_update_present by (simpl; left). simpl.
  by rewrite decide_True.
Qed.

Lemma two_clusters_equal_size k1 k2 a b p1 p2 p3 p4 :
  k1 ≠ k2 → equal_size_per_group (two_clusters k1 k2 a b p1 p2 p3 p4).
Proof.
  intros Hk. apply equal_size_per_group_Forall.
  unfold two_clusters. repeat constructor; simpl; congruence.
Qed.

Lemma analyze_two_clusters k1 k2 a b p1 p2 p3 p4 :
  k1 ≠ k2 → a ≠ b →
  analyze_folder_groups 1500 (two_clusters k1 k2 a b p1 p2 p3 p4) =
  Some [ {| folders := {[ a; b ]};
            shared_files := [ (k1, [mk k1 a p1 1000; mk k1 b p2 1000]);
                              (k2, [mk k2 a p3 2000; mk k2 b p4 2000]) ];
            total_shared_size := 3000;
            wasted_space := 3000 |} ].
Proof.
  intros Hk Hab.
  by rewrite analyze_folder_groups_closed, two_clusters_relationships.
Qed.

Lemma perm_upto_singleton_l {A} (R : A → A → Prop) x l :
  perm_upto R [x] l → ∃ y, l = [y] ∧ R x y.
Proof.
  intros (l' & Hp & HF). apply Permutation_singleton_l in Hp as <-.
  apply Forall2_cons_inv_l in HF as (y & k & HR & ->%Forall2_nil_inv_l & ->).
  eauto.
Qed.

(** * The scan in terms of positions

    [merge_pass] walks the list; the source walks index pairs. The merge
    it performs is the one at the first pair [(i, j)], in the order of the
    nested [for] loops, whose groups pass [should_merge]: [groups[i]] is
    replaced by the merged group and [groups[j]] is popped. *)

Lemma merge_first_index gi rest merged rest' :
  merge_first gi rest = Some (merged, rest') →
  ∃ j gj,
    rest !! j = Some gj ∧ should_merge gi gj = true ∧
    merged = merge_groups gi gj ∧ rest' = delete j rest ∧
    ∀ j' gj', (j' < j)%nat → rest !! j' = Some gj' → should_merge gi gj' = false.
Proof.
  intros (mid & gj & post & -> & -> & -> & Hm & Hsep)%merge_first_Some.
  exists (length mid), gj. split_and!; [|done..| |].
  - by rewrite list_lookup_middle.
  - by rewrite delete_middle.
  - intros j' gj' Hlt Hj'. rewrite lookup_app_l in Hj' by done.
    by apply (Forall_lookup_1 _ _ _ _ Hsep Hj').
Qed.

Lemma merge_pass_index groups groups' :
  merge_pass groups = Some groups' →
  ∃ i j gi gj,
    (i < j)%nat ∧ groups !! i = Some gi ∧ groups !! j = Some gj ∧
    should_merge gi gj = true ∧
    groups' = delete j (<[i := merge_groups gi gj]> groups) ∧
    ∀ i' j' gi' gj',
      (i' < j')%nat → groups !! i' = Some gi' → groups !! j' = Some gj' →
      earlier_pair i' j' i j → should_merge gi' gj' = false.
Proof.
  revert groups'. induction groups as [|g groups IH]; intros groups'; simpl; [done|].
  destruct (merge_first g groups) as [[merged rest']|] eqn:E.
  - intros [= <-].
    apply merge_first_index in E as (j & gj & Hj & Hm & -> & -> & Hmin).
    exists 0%nat, (S j), g, gj. split_and!; [lia|done..|].
    intros i' j' gi' gj' Hlt Hi' Hj' [?|[-> Hjj]]; [lia|].
    injection Hi' as <-. destruct j' as [|j']; [lia|].
    apply (Hmin j'); [lia|done].
  - apply merge_first_None in E.
    destruct (merge_pass groups) as [groups0|]; simpl; [|done].
    intros [= <-].
    destruct (IH _ eq_refl) as (i & j & gi & gj & Hij & Hi & Hj & Hm & -> & Hmin).
    exists (S i), (S j), gi, gj. split_and!; [lia|done..|].
    intros i' j' gi' gj' Hlt Hi' Hj' Hearlier.
    destruct j' as [|j']; [lia|]. destruct i' as [|i'].
    + injection Hi' as <-. by apply (Forall_lookup_1 _ _ _ _ E Hj').
    + apply (Hmin i' j'); [lia|done..|]. unfold earlier_pair in *. lia.
Qed.

(** * The model on the repository's test data *)

Example analyze_test_files :
  analyze_folder_groups 1500 test_files =
  Some [ {| folders := {[ "photos"; "backup" ]};
            shared_files :=
              [ ("1", [ mk "1" "photos" "/volume1/photos/small.jpg" 1000;
                        mk "1" "backup" "/volume1/backup/small.jpg" 1000 ]);
                ("2", [ mk "2" "photos" "/volume1/photos/large.jpg" 2000;
                        mk "2" "backup" "/volume1/backup/large.jpg" 2000 ]) ];
            total_shared_size := 3000; wasted_space := 3000 |} ].
Proof. by vm_compute. Qed.

Example analyze_empty : analyze_folder_groups 50000000 [] = Some [].
Proof. reflexivity. Qed.

Example compact_test_groups :
  compact_nested_folders test_groups =
  Some [ {| folders := {[ "photos/vacation"; "backup/photos"; "photos"; "backup" ]};
            shared_files := [("1", []); ("2", [])];
            total_shared_size := 3000; wasted_space := 3000 |} ].
Proof. by vm_compute. Qed.

(** * Further facts about [analyze_folder_groups] *)

Lemma insert_desc_head x l :
  Forall (λ y, total_shared_size y ≤ total_shared_size x) l →
  insert_desc x l = x :: l.
Proof.
  destruct l as [|y l]; [done|]. intros [Hy _]%Forall_cons. simpl.
  rewrite bool_decide_eq_false_2; [done|lia].
Qed.

Lemma insert_desc_filter (P : FolderGroup → Prop) `{∀ g, Decision (P g)} x l :
  StronglySorted desc l →
  filter P (insert_desc x l) =
  if decide (P x) then insert_desc x (filter P l) else filter P l.
Proof.
  induction l as [|y l IH]; intros Hl.
  - simpl. rewrite filter_cons, filter_nil. by case_decide.
  - apply StronglySorted_cons in Hl as [Hy Hl]. simpl. case_bool_decide as Hlt.
    + rewrite !(filter_cons _ y), IH by done.
      destruct (decide (P x)), (decide (P y)); try done.
      simpl. by rewrite bool_decide_eq_true_2.
    + rewrite (filter_cons _ x). case_decide; [|done].
      rewrite insert_desc_head; [done|].
      apply Forall_list_filter. constructor; [lia|].
      eapply Forall_impl; [exact Hy|]. unfold desc. intros; simpl in *; lia.
Qed.

(** Filtering commutes with the stable sort. *)
Lemma sort_desc_filter (P : FolderGroup → Prop) `{∀ g, Decision (P g)} l :
  filter P (sort_desc l) = sort_desc (filter P l).
Proof.
  induction l as [|x l IH]; [done|]. simpl.
  rewrite insert_desc_filter by apply sort_desc_sorted.
  rewrite filter_cons, IH. by case_decide.
Qed.

Lemma size_folder_set_le l : (base.size (folder_set l) ≤ length l)%nat.
Proof.
  unfold folder_set. induction l as [|f l IH].
  - rewrite fmap_nil, list_to_set_nil, size_empty. done.
  - rewrite fmap_cons, list_to_set_cons, size_union_alt, size_singleton.
    pose proof (subseteq_size (list_to_set (folder <$> l) ∖ {[folder f]})
                  (list_to_set (folder <$> l) : gset string)) as Hle.
    specialize (Hle ltac:(set_solver)). simpl. lia.
Qed.

Lemma make_group_folders (rel : list (gset string * list (string * list DuplicateFile))) :
  folders <$> (make_group <$> rel) = rel.*1.
Proof. rewrite <- list_fmap_compose. by apply list_fmap_ext. Qed.

Lemma folder_relationships_NoDup files : NoDup (folder_relationships files).*1.
Proof. rewrite folder_relationships_group_by. apply group_by_NoDup. Qed.

Lemma analyze_folder_groups_folders_NoDup m files out :
  analyze_folder_groups m files = Some out → NoDup (folders <$> out).
Proof.
  rewrite analyze_folder_groups_closed. intros [= <-].
  rewrite sort_desc_perm.
  eapply sublist_NoDup; [|apply fmap_sublist, sublist_filter].
  rewrite make_group_folders. apply folder_relationships_NoDup.
Qed.


(** Sizes that are not negative give metrics that are not negative, and
    at least as much waste as shared content: a cluster that spans two
    folders has at least two copies. *)
Lemma make_group_wasted_ge_total files fs shared :
  (∀ f, f ∈ files → 0 ≤ size f) →
  (fs, shared) ∈ folder_relationships files →
  0 ≤ total_of shared ≤ wasted_of shared.
Proof.
  intros Hpos [-> _]%elem_of_folder_relationships.
  assert (Forall (λ c : string * list DuplicateFile,
            0 ≤ head_size c.2 ≤ head_size c.2 * (Z.of_nat (length c.2) - 1))
          (filter (λ c, cluster_folders c = fs)
                  (filter spans_folders (groups_by_id files)))) as Hall.
  { apply Forall_forall. intros [k l] [_ Hin]%list_elem_of_filter.
    apply spans_folders_groups_by_id in Hin as [-> Hs]. simpl.
    pose proof (size_folder_set_le (cluster files k)) as Hlen.
    assert (0 ≤ head_size (cluster files k)) as Hh.
    { unfold head_size. destruct (cluster files k) as [|f0 l0] eqn:E; [done|].
      simpl. apply Hpos. assert (f0 ∈ cluster files k) as Hf0 by (rewrite E; left).
      by apply elem_of_cluster in Hf0 as [_ ?]. }
    nia. }
  unfold total_of, wasted_of.
  induction Hall as [|c l Hc _ IH]; csimpl; [lia|]. lia.
Qed.

(** * Further facts about [compact_nested_folders] *)

Lemma dict_alter_extend_join {K A} `{EqDecision K} (xs : list A) (k : K)
    (d : list (K * list A)) :
  k ∈ d.*1 → mjoin (dict_alter (λ l, l ++ xs) k d).*2 ≡ₚ mjoin d.*2 ++ xs.
Proof.
  induction d as [|[k' l'] d IH]; csimpl.
  - by intros ?%elem_of_nil.
  - intros Hin. case_decide; csimpl.
    + rewrite <- !app_assoc. apply Permutation_app_head, Permutation_app_comm.
    + apply elem_of_cons in Hin as [|Hin]; [congruence|].
      by rewrite IH, app_assoc.
Qed.

(** Merging two [shared_files] dictionaries keeps every record of both. *)
Lemma merge_shared_files_records
    (files_i files_j : list (string * list DuplicateFile)) :
  mjoin (merge_shared_files files_i files_j).*2 ≡ₚ
  mjoin files_i.*2 ++ mjoin files_j.*2.
Proof.
  unfold merge_shared_files. revert files_i.
  induction files_j as [|[gid l] files_j IH]; intros files_i; csimpl.
  - by rewrite app_nil_r.
  - rewrite IH. rewrite app_assoc. apply Permutation_app_tail.
    destruct (dict_mem gid files_i) eqn:E.
    + apply dict_alter_extend_join. by apply dict_mem_true.
    + apply dict_mem_false in E. rewrite dict_set_notin by done.
      rewrite fmap_app, join_app. csimpl. by rewrite app_nil_r.
Qed.

Lemma all_records_cons g gs : all_records (g :: gs) = records g ++ all_records gs.
Proof. done. Qed.

Lemma all_records_app gs1 gs2 :
  all_records (gs1 ++ gs2) = all_records gs1 ++ all_records gs2.
Proof. apply bind_app. Qed.

Lemma all_folders_cons g gs : all_folders (g :: gs) = folders g ∪ all_folders gs.
Proof. done. Qed.

Lemma all_folders_app gs1 gs2 :
  all_folders (gs1 ++ gs2) = all_folders gs1 ∪ all_folders gs2.
Proof. unfold all_folders. by rewrite fmap_app, union_list_app_L. Qed.

Lemma all_folders_perm gs1 gs2 : gs1 ≡ₚ gs2 → all_folders gs1 = all_folders gs2.
Proof. unfold all_folders. by intros ->. Qed.

Lemma sum_totals_app gs1 gs2 : sum_totals (gs1 ++ gs2) = sum_totals gs1 + sum_totals gs2.
Proof. unfold sum_totals. by rewrite fmap_app, Zsum_app. Qed.

Lemma sum_wasted_app gs1 gs2 : sum_wasted (gs1 ++ gs2) = sum_wasted gs1 + sum_wasted gs2.
Proof. unfold sum_wasted. by rewrite fmap_app, Zsum_app. Qed.

(** What one merge conserves. *)
Lemma merge_pass_conserves gs gs' :
  merge_pass gs = Some gs' →
  sum_totals gs' = sum_totals gs ∧ sum_wasted gs' = sum_wasted gs ∧
  all_folders gs' = all_folders gs ∧ all_records gs' ≡ₚ all_records gs.
Proof.
  intros (pre & gi & mid & gj & post & -> & -> & _)%merge_pass_Some.
  split_and!.
  - rewrite !sum_totals_app. unfold sum_totals. csimpl.
    fold (sum_totals (mid ++ post)). fold (sum_totals (mid ++ gj :: post)).
    rewrite !sum_totals_app. unfold sum_totals. csimpl. lia.
  - rewrite !sum_wasted_app. unfold sum_wasted. csimpl.
    fold (sum_wasted (mid ++ post)). fold (sum_wasted (mid ++ gj :: post)).
    rewrite !sum_wasted_app. unfold sum_wasted. csimpl. lia.
  - rewrite !all_folders_app, !all_folders_cons, !all_folders_app, all_folders_cons.
    simpl. set_solver.
  - rewrite !all_records_app, !all_records_cons, !all_records_app, all_records_cons.
    apply Permutation_app_head. unfold records at 1. simpl.
    rewrite merge_shared_files_records. fold (records gi). fold (records gj).
    rewrite <- !app_assoc. apply Permutation_app_head.
    rewrite !app_assoc. apply Permutation_app_tail, Permutation_app_comm.
Qed.

Lemma merge_pass_absorbs gs gs' g :
  merge_pass gs = Some gs' → g ∈ gs → ∃ g', g' ∈ gs' ∧ folders g ⊆ folders g'.
Proof.
  intros (pre & gi & mid & gj & post & -> & -> & _)%merge_pass_Some Hg.
  assert (merge_groups gi gj ∈ pre ++ merge_groups gi gj :: mid ++ post) as Hm
    by (apply elem_of_app; right; left).
  rewrite elem_of_app, elem_of_cons, elem_of_app, elem_of_cons in Hg.
  destruct Hg as [Hg|[->|[Hg| [->|Hg]]]].
  - exists g. split; [|done]. apply elem_of_app. by left.
  - exists (merge_groups gi gj). split; [done|]. simpl. set_solver.
  - exists g. split; [|done].
    rewrite elem_of_app, elem_of_cons, elem_of_app. auto.
  - exists (merge_groups gi gj). split; [done|]. simpl. set_solver.
  - exists g. split; [|done].
    rewrite elem_of_app, elem_of_cons, elem_of_app. auto.
Qed.

Lemma pairwise_unmergeable_separate gs :
  pairwise_unmergeable gs ↔ StronglySorted separate gs.
Proof.
  split.
  - induction gs as [|g gs IH]; intros Hpw; [constructor|].
    apply StronglySorted_cons. split.
    + apply Forall_lookup. intros j x Hx.
      unfold separate. apply not_true_is_false. intros Hm%should_merge_mergeable.
      by apply (Hpw 0%nat (S j) g x).
    + apply IH. intros i j gi gj Hij Hi Hj.
      apply (Hpw (S i) (S j)); [lia|done..].
  - intros Hs i j gi gj. by apply separate_lookup.
Qed.

Lemma compact_nested_folders_no_merge gs :
  merge_pass gs = None → compact_nested_folders gs = Some (sort_desc gs).
Proof.
  intros Hnone. destruct gs as [|g gs]; [done|].
  unfold compact_nested_folders, compact_nested_folders_fuel.
  cbn [length merge_loop]. by rewrite Hnone.
Qed.

(** * Strings *)

Lemma append_cons c (s t : string) : String c s +:+ t = String c (s +:+ t).
Proof. done. Qed.

Lemma append_assoc (a b c : string) : (a +:+ b) +:+ c = a +:+ (b +:+ c).
Proof. induction a as [|x a IH]; [done|]. by rewrite !append_cons, IH. Qed.

Lemma append_length (a b : string) :
  String.length (a +:+ b) = (String.length a + String.length b)%nat.
Proof. induction a as [|x a IH]; [done|]. rewrite append_cons. simpl. by rewrite IH. Qed.

Lemma list_ascii_of_append (a b : string) :
  list_ascii_of_string (a +:+ b) = list_ascii_of_string a ++ list_ascii_of_string b.
Proof. induction a as [|x a IH]; [done|]. rewrite append_cons. simpl. by rewrite IH. Qed.

Lemma slash_free_cons c s :
  slash_free (String c s) ↔ c ≠ "/"%char ∧ slash_free s.
Proof. unfold slash_free. simpl. rewrite not_elem_of_cons. naive_solver. Qed.

Lemma slash_free_append_slash (a r : string) : ¬ slash_free (a +:+ "/" +:+ r).
Proof.
  unfold slash_free. rewrite !list_ascii_of_append. simpl.
  intros H. apply H. apply elem_of_app. right. left.
Qed.

(** A name without [/] has no sub-folder in the sense of [is_nested]. *)
Lemma slash_free_not_nested a b :
  slash_free a → slash_free b → is_nested a b = false.
Proof.
  intros Ha Hb. apply not_true_is_false. intros [[r Hr]|[r Hr]]%is_nested_spec.
  - rewrite Hr, append_assoc in Ha. by apply slash_free_append_slash in Ha.
  - rewrite Hr, append_assoc in Hb. by apply slash_free_append_slash in Hb.
Qed.

Lemma strip_prefix_Some p s r : strip_prefix p s = Some r ↔ s = p +:+ r.
Proof.
  revert s. induction p as [|c p IH]; intros s; simpl.
  - split; [by intros [= ->]|by intros ->].
  - destruct s as [|c' s]; [done|]. rewrite append_cons. case_decide; subst.
    + rewrite IH. split; [by intros ->|by intros [= ->]].
    + split; [done|]. by intros [= ? _].
Qed.

Lemma until_slash_run (name rest : string) :
  slash_free name →
  until_slash (name +:+ "/" +:+ rest) = (name, "/" +:+ rest).
Proof.
  induction name as [|c name IH]; intros Hn.
  - done.
  - apply slash_free_cons in Hn as [Hc Hn]. rewrite append_cons. simpl.
    rewrite decide_False by done. by rewrite IH.
Qed.

Lemma until_slash_inv s name tail :
  until_slash s = (name, tail) →
  s = name +:+ tail ∧ slash_free name ∧ (tail = "" ∨ ∃ r, tail = "/" +:+ r).
Proof.
  revert name tail. induction s as [|c s IH]; intros name tail; simpl.
  - intros [= <- <-]. split_and!; [done| |by left]. unfold slash_free. simpl.
    apply not_elem_of_nil.
  - case_decide as Hc.
    + intros [= <- <-]. subst c. split_and!; [done| |right; by exists s].
      unfold slash_free. simpl. apply not_elem_of_nil.
    + destruct (until_slash s) as [n t]. intros [= <- <-].
      destruct (IH n t eq_refl) as (-> & Hn & Ht).
      split_and!; [done| |done]. by apply slash_free_cons.
Qed.

(** * Reading rows *)

Section read_facts.
Variable int_of_string : string → option Z.

Lemma read_row_inr row f :
  read_row int_of_string row = inr f ↔ row_of int_of_string row f.
Proof.
  unfold read_row, row_of. split.
  - destruct row as [|g [|fo [|p [|s [|m [|? ?]]]]]]; try done.
    destruct (int_of_string s) as [sz|] eqn:E; [|done].
    intros [= <-]. by exists s, m.
  - intros (s & m & -> & Hs). rewrite Hs. by destruct f.
Qed.

Lemma read_rows_inr rows acc files :
  read_rows int_of_string rows acc = inr files ↔
  ∃ fs, files = acc ++ fs ∧ Forall2 (row_of int_of_string) rows fs.
Proof.
  revert acc. induction rows as [|row rows IH]; intros acc; simpl.
  - split.
    + intros [= <-]. exists []. by rewrite app_nil_r.
    + intros (fs & -> & ->%Forall2_nil_inv_l). by rewrite app_nil_r.
  - destruct (read_row int_of_string row) as [e|f] eqn:E.
    + split; [done|]. intros (fs & _ & HF).
      apply Forall2_cons_inv_l in HF as (f & fs' & Hf%read_row_inr & _ & _).
      congruence.
    + rewrite IH. apply read_row_inr in E. split.
      * intros (fs & -> & HF). exists (f :: fs).
        rewrite <- app_assoc. split; [done|]. by constructor.
      * intros (fs & -> & HF).
        apply Forall2_cons_inv_l in HF as (f' & fs' & Hf' & HF & ->).
        assert (f' = f) as ->.
        { apply read_row_inr in E, Hf'. congruence. }
        exists fs'. by rewrite <- app_assoc.
Qed.

Lemma read_rows_first_error good bad rest acc e :
  Forall (λ row, ∃ f, read_row int_of_string row = inr f) good →
  read_row int_of_string bad = inl e →
  read_rows int_of_string (good ++ bad :: rest) acc = inl e.
Proof.
  intros Hgood Hbad. revert acc.
  induction Hgood as [|row good [f Hf] _ IH]; intros acc; simpl.
  - by rewrite Hbad.
  - by rewrite Hf, IH.
Qed.
End read_facts.

(** * The properties stated by the specification *)

(** C1. For every input list of records in which all records sharing a
    groupID have equal size, [analyze_folder_groups] returns, and every
    group it returns has [total_shared_size] equal to the sum, once per
    distinct groupID of its [shared_files], of the cluster's per-copy size,
    and [wasted_space] equal to the sum, once per distinct groupID, of that
    size times the number of records of the cluster in the group minus one
    (this is [consistent]). *)
Theorem analyze_folder_groups_metrics (min_group_size : Z) (files : list DuplicateFile) :
  equal_size_per_group files →
  ∃ out, analyze_folder_groups min_group_size files = Some out ∧
         ∀ g, g ∈ out → consistent files g.
Proof.
  intros Heq. rewrite analyze_folder_groups_closed. eexists. split; [done|].
  intros g Hg. eapply pipeline_inv_consistent; [done| |exact Hg].
  by eapply pipeline_inv_analyze, analyze_folder_groups_closed.
Qed.

Lemma analyze_folder_groups_metrics_witness :
  equal_size_per_group test_files ∧
  ∃ out, analyze_folder_groups 1500 test_files = Some out ∧
         ∀ g, g ∈ out → consistent test_files g.
Proof.
  split; [apply equal_size_per_group_test_files|].
  apply (analyze_folder_groups_metrics 1500 test_files).
  apply equal_size_per_group_test_files.
Defined.

(** C2. For every input list of records and every non-negative
    [min_group_size], every group returned by [analyze_folder_groups] has
    [total_shared_size >= min_group_size], and so has every group that
    [compact_nested_folders] returns on that list. *)
Theorem threshold_respected (min_group_size : Z) (files : list DuplicateFile) :
  0 ≤ min_group_size →
  ∃ out out',
    analyze_folder_groups min_group_size files = Some out ∧
    Forall (λ g, min_group_size ≤ total_shared_size g) out ∧
    compact_nested_folders out = Some out' ∧
    Forall (λ g, min_group_size ≤ total_shared_size g) out'.
Proof.
  intros Hm. rewrite analyze_folder_groups_closed.
  set (out := sort_desc _).
  assert (Forall (λ g, min_group_size ≤ total_shared_size g) out) as Hout.
  { apply Forall_sort_desc, Forall_forall.
    by intros g [? _]%list_elem_of_filter. }
  destruct (compact_nested_folders_spec out) as (final & Hrun & _ & Hkeep).
  exists out, (sort_desc final). split_and!; [done..|].
  apply Forall_sort_desc, Hkeep; [|done].
  intros gs gs' Hgs (pre & gi & mid & gj & post & -> & -> & _)%merge_pass_Some.
  rewrite !Forall_app, !Forall_cons, !Forall_app, !Forall_cons in Hgs.
  destruct Hgs as (Hpre & Hgi & Hmid & Hgj & Hpost).
  rewrite !Forall_app, !Forall_cons, !Forall_app. split_and!; try done.
  simpl. lia.
Qed.

Lemma threshold_respected_witness :
  0 ≤ 1500 ∧
  ∃ out out',
    analyze_folder_groups 1500 test_files = Some out ∧
    Forall (λ g, 1500 ≤ total_shared_size g) out ∧
    compact_nested_folders out = Some out' ∧
    Forall (λ g, 1500 ≤ total_shared_size g) out'.
Proof. split; [lia|]. apply (threshold_respected 1500 test_files). lia. Defined.

(** C6. The list returned by [analyze_folder_groups] and the list returned
    by [compact_nested_folders] are each sorted by [total_shared_size] in
    descending order: every element's [total_shared_size] is greater than
    or equal to its successor's. *)
Theorem outputs_sorted_descending (min_group_size : Z)
    (files : list DuplicateFile) (groups : list FolderGroup) :
  (∃ out, analyze_folder_groups min_group_size files = Some out ∧
          sorted_descending out) ∧
  (∃ out, compact_nested_folders groups = Some out ∧ sorted_descending out).
Proof.
  split.
  - rewrite analyze_folder_groups_closed. eexists. split; [done|].
    apply sort_desc_sorted_descending.
  - destruct (compact_nested_folders_spec groups) as (final & Hrun & _).
    exists (sort_desc final). split; [done|]. apply sort_desc_sorted_descending.
Qed.

(** C8. [compact_nested_folders] is idempotent: applied to its own output
    it returns that same list of groups. *)
Theorem compact_nested_folders_idempotent (groups : list FolderGroup) :
  ∃ out, compact_nested_folders groups = Some out ∧
         compact_nested_folders out = Some out.
Proof.
  destruct (compact_nested_folders_spec groups) as (final & Hrun & Hnone & _).
  exists (sort_desc final). split; [done|].
  apply compact_nested_folders_fixed.
  - by apply sort_desc_separate.
  - apply sort_desc_sorted.
Qed.

(** C9. [compact_nested_folders] terminates on every list of groups: every
    merge strictly reduces the number of groups, so after at most
    [length groups] scans the loop reaches a scan that merges nothing, and
    the function returns. *)
Theorem compact_nested_folders_terminates (groups : list FolderGroup) :
  (∀ gs gs', merge_pass gs = Some gs' → (length gs' < length gs)%nat) ∧
  (groups ≠ [] →
   ∃ final, merge_pass final = None ∧
            ∀ fuel, (length groups ≤ fuel)%nat →
                    merge_loop fuel groups = Some final) ∧
  ∃ out, ∀ fuel, (length groups ≤ fuel)%nat →
                 compact_nested_folders_fuel fuel groups = Some out.
Proof.
  split_and!.
  - intros gs gs' H%merge_pass_length. lia.
  - intros Hne.
    destruct (merge_loop_final (length groups) groups) as (final & Hrun & Hnone & _);
      [done..|].
    exists final. split; [done|]. intros fuel Hfuel.
    by eapply merge_loop_fuel_mono.
  - destruct (compact_nested_folders_run groups) as (final & Hrun & _).
    by exists (sort_desc final).
Qed.

(** C5. For every record list in which all records sharing a groupID have
    equal size, both functions return, and every group in the output of
    [compact_nested_folders] applied to the output of
    [analyze_folder_groups] still has [total_shared_size] and
    [wasted_space] equal to their recomputation from its [shared_files]
    ([consistent]), although the merge adds the metrics up instead of
    recomputing them. *)
Theorem compact_keeps_metrics_consistent (min_group_size : Z)
    (files : list DuplicateFile) :
  equal_size_per_group files →
  ∃ out out',
    analyze_folder_groups min_group_size files = Some out ∧
    compact_nested_folders out = Some out' ∧
    ∀ g, g ∈ out' → consistent files g.
Proof.
  intros Heq.
  destruct (analyze_folder_groups min_group_size files) as [out|] eqn:Hout;
    [|by rewrite analyze_folder_groups_closed in Hout].
  destruct (compact_nested_folders_spec out) as (final & Hrun & _).
  exists out, (sort_desc final). split_and!; [done..|].
  intros g Hg. eapply pipeline_inv_consistent; [done| |exact Hg].
  eapply pipeline_inv_compact; [|exact Hrun]. by eapply pipeline_inv_analyze.
Qed.

Lemma compact_keeps_metrics_consistent_witness :
  equal_size_per_group test_files ∧
  ∃ out out',
    analyze_folder_groups 1500 test_files = Some out ∧
    compact_nested_folders out = Some out' ∧
    ∀ g, g ∈ out' → consistent test_files g.
Proof.
  split; [apply equal_size_per_group_test_files|].
  apply (compact_keeps_metrics_consistent 1500 test_files).
  apply equal_size_per_group_test_files.
Defined.

(** C7. A cluster (the records sharing one groupID [k]) whose records span
    exactly one distinct folder contributes to no group returned by
    [analyze_folder_groups]: [k] is no key of any [shared_files], none of
    the cluster's records is held by any group, and the output, all metrics
    included, is the one obtained from the input without the cluster. *)
Theorem single_folder_cluster_excluded (min_group_size : Z)
    (files : list DuplicateFile) (k : string) :
  base.size (folder_set (cluster files k)) = 1%nat →
  ∃ out,
    analyze_folder_groups min_group_size files = Some out ∧
    (∀ g, g ∈ out →
       (k ∉ (shared_files g).*1) ∧
       (∀ k' l f, (k', l) ∈ shared_files g → f ∈ l → group_id f ≠ k)) ∧
    analyze_folder_groups min_group_size (filter (λ f, group_id f ≠ k) files)
      = Some out.
Proof.
  intros Hone.
  destruct (analyze_folder_groups min_group_size files) as [out|] eqn:Hout;
    [|by rewrite analyze_folder_groups_closed in Hout].
  exists out. split_and!; [done| |].
  - intros g Hg.
    assert (∀ l, (k, l) ∉ shared_files g) as Hk.
    { intros l Hl.
      destruct (shared_files_spanning _ _ _ _ _ _ Hout Hg Hl) as (_ & Hs & _). lia. }
    split.
    + intros ([k' l] & -> & Hin)%list_elem_of_fmap. by apply (Hk l).
    + intros k' l f Hl Hf Hgid.
      destruct (shared_files_spanning _ _ _ _ _ _ Hout Hg Hl) as (-> & _).
      apply elem_of_cluster in Hf as [Hk' _].
      apply (Hk (cluster files k')). congruence.
  - rewrite analyze_folder_groups_closed in Hout |- *.
    rewrite folder_relationships_drop_cluster; [done|lia].
Qed.

Lemma single_folder_cluster_excluded_witness :
  base.size (folder_set (cluster files_with_local_cluster "3")) = 1%nat ∧
  ∃ out,
    analyze_folder_groups 1500 files_with_local_cluster = Some out ∧
    (∀ g, g ∈ out →
       ("3" ∉ (shared_files g).*1) ∧
       (∀ k' l f, (k', l) ∈ shared_files g → f ∈ l → group_id f ≠ "3")) ∧
    analyze_folder_groups 1500
      (filter (λ f, group_id f ≠ "3") files_with_local_cluster) = Some out.
Proof.
  split; [by vm_compute|].
  apply (single_folder_cluster_excluded 1500 files_with_local_cluster "3").
  by vm_compute.
Defined.

(** C4. In the list returned by [compact_nested_folders] no two distinct
    groups are mergeable: there is no folder [a] in one and [b] in another
    with [a = b], or [b] beginning with [a + "/"], or [a] beginning with
    [b + "/"]. In particular, three groups with folder sets [{A, A/x}],
    [{A/x, B}] and [{B, C}], listed in any order, collapse into one group. *)
Theorem compact_leaves_no_mergeable_pair (groups : list FolderGroup)
    (A B C x : string)
    (shared1 shared2 shared3 : list (string * list DuplicateFile))
    (total1 wasted1 total2 wasted2 total3 wasted3 : Z) :
  (∃ out, compact_nested_folders groups = Some out ∧
          ∀ i j gi gj, i ≠ j → out !! i = Some gi → out !! j = Some gj →
                       ¬ mergeable gi gj) ∧
  Forall (λ gs, ∃ g, compact_nested_folders gs = Some [g] ∧
                     folders g = {[ A; A +:+ "/" +:+ x; B; C ]})
    (permutations (chain_groups A B C x shared1 shared2 shared3
                     total1 wasted1 total2 wasted2 total3 wasted3)).
Proof.
  split; [|apply chain_groups_collapse].
  destruct (compact_nested_folders_spec groups) as (final & Hrun & Hnone & _).
  exists (sort_desc final). split; [done|].
  intros i j gi gj. apply separate_lookup. by apply sort_desc_separate.
Qed.

(** C3. With [min_group_size] 1500 and an input consisting of exactly two
    clusters over the same pair of distinct folders, one of two records of
    size 1000 each and one of two records of size 2000 each, in whatever
    order the four records come, [analyze_folder_groups] accumulates both
    clusters into the one group of that folder pair before it applies the
    threshold: it returns exactly one group, which holds both groupIDs and
    has [total_shared_size] 3000. *)
Theorem threshold_applies_after_accumulation
    (k1 k2 a b p1 p2 p3 p4 : string) (files : list DuplicateFile) :
  k1 ≠ k2 → a ≠ b →
  files ≡ₚ two_clusters k1 k2 a b p1 p2 p3 p4 →
  ∃ g, analyze_folder_groups 1500 files = Some [g] ∧
       folders g = {[ a; b ]} ∧
       total_shared_size g = 3000 ∧
       wasted_space g = 3000 ∧
       ∀ k, is_Some (dict_get k (shared_files g)) ↔ k = k1 ∨ k = k2.
Proof.
  intros Hk Hab Hp.
  destruct (analyze_folder_groups_perm 1500 (two_clusters k1 k2 a b p1 p2 p3 p4) files)
    as (out & out' & Hout & Hout' & Hsame);
    [by apply two_clusters_equal_size|done|].
  rewrite analyze_two_clusters in Hout by done. injection Hout as <-.
  apply perm_upto_singleton_l in Hsame as (g & -> & Hf & Ht & Hw & Hsh).
  simpl in *. exists g. split_and!; [done..|].
  intros k. specialize (Hsh k). simpl in Hsh.
  repeat case_decide; subst; inv Hsh; split;
    try (intros [? [=]]); try done; naive_solver.
Qed.

Lemma threshold_applies_after_accumulation_witness :
  "1" ≠ "2" ∧ "photos" ≠ "backup" ∧
  test_files_shuffled ≡ₚ
    two_clusters "1" "2" "photos" "backup"
      "/volume1/photos/small.jpg" "/volume1/backup/small.jpg"
      "/volume1/photos/large.jpg" "/volume1/backup/large.jpg" ∧
  ∃ g, analyze_folder_groups 1500 test_files_shuffled = Some [g] ∧
       folders g = {[ "photos"; "backup" ]} ∧
       total_shared_size g = 3000 ∧
       wasted_space g = 3000 ∧
       ∀ k, is_Some (dict_get k (shared_files g)) ↔ k = "1" ∨ k = "2".
Proof.
  assert (test_files_shuffled ≡ₚ
            two_clusters "1" "2" "photos" "backup"
              "/volume1/photos/small.jpg" "/volume1/backup/small.jpg"
              "/volume1/photos/large.jpg" "/volume1/backup/large.jpg") as Hp
    by (apply (bool_decide_unpack _); by vm_compute).
  split_and!; [done..|].
  by apply (threshold_applies_after_accumulation "1" "2" "photos" "backup"
              "/volume1/photos/small.jpg" "/volume1/backup/small.jpg"
              "/volume1/photos/large.jpg" "/volume1/backup/large.jpg"
              test_files_shuffled).
Defined.

(** C10, as stated, fails: the metrics are read off the first record of a
    cluster, so for a cluster whose copies differ in size the order of the
    records decides them. Here the two orders of one such cluster give
    different (folders, totalSharedSize, wastedSpace) triples. *)
Lemma permutation_changes_metrics :
  files_unequal ≡ₚ files_unequal_swapped ∧
  ∃ out out',
    analyze_folder_groups 0 files_unequal = Some out ∧
    analyze_folder_groups 0 files_unequal_swapped = Some out' ∧
    ¬ (metrics <$> out ≡ₚ metrics <$> out').
Proof.
  split; [apply perm_swap|].
  eexists _, _. split_and!; [by vm_compute..|].
  intros Hp%Permutation_singleton_inj. by injection Hp.
Qed.

(** C10, amended. For every input record list in which all records
    sharing a groupID have equal size, and every permutation of it,
    [analyze_folder_groups] returns the same collection of groups up to the
    order of the list and of the records of a cluster: the same multiset of
    (folders, totalSharedSize, wastedSpace) triples, and matching groups
    hold the same records under every groupID. *)
Theorem analyze_folder_groups_permutation (min_group_size : Z)
    (files files' : list DuplicateFile) :
  equal_size_per_group files → files ≡ₚ files' →
  ∃ out out',
    analyze_folder_groups min_group_size files = Some out ∧
    analyze_folder_groups min_group_size files' = Some out' ∧
    metrics <$> out ≡ₚ metrics <$> out' ∧
    perm_upto same_group out out'.
Proof.
  intros Heq Hp.
  destruct (analyze_folder_groups_perm min_group_size files files' Heq Hp)
    as (out & out' & Hout & Hout' & Hsame).
  exists out, out'. split_and!; [done..| |done].
  eapply perm_upto_fmap; [|exact Hsame]. apply same_group_metrics.
Qed.

Lemma analyze_folder_groups_permutation_witness :
  equal_size_per_group test_files ∧ test_files ≡ₚ test_files_shuffled ∧
  ∃ out out',
    analyze_folder_groups 1500 test_files = Some out ∧
    analyze_folder_groups 1500 test_files_shuffled = Some out' ∧
    metrics <$> out ≡ₚ metrics <$> out' ∧
    perm_upto same_group out out'.
Proof.
  assert (test_files ≡ₚ test_files_shuffled) as Hp
    by (apply (bool_decide_unpack _); by vm_compute).
  split_and!; [apply equal_size_per_group_test_files|done|].
  apply (analyze_folder_groups_permutation 1500 test_files test_files_shuffled).
  - apply equal_size_per_group_test_files.
  - done.
Defined.

(** * Further properties of the code *)

(** X1. Every group returned by [analyze_folder_groups] names at least two
    folders and holds at least one cluster; the records under a groupID are
    the whole cluster of that groupID, and that cluster spans exactly the
    folders of the group. *)
Theorem analyze_groups_shape (min_group_size : Z) (files : list DuplicateFile) :
  ∃ out, analyze_folder_groups min_group_size files = Some out ∧
    ∀ g, g ∈ out →
      (2 ≤ base.size (folders g))%nat ∧ shared_files g ≠ [] ∧
      ∀ k l, (k, l) ∈ shared_files g →
             l = cluster files k ∧ folder_set l = folders g.
Proof.
  destruct (analyze_folder_groups min_group_size files) as [out|] eqn:Hout;
    [|by rewrite analyze_folder_groups_closed in Hout].
  exists out. split; [done|]. intros g Hg.
  assert (∀ k l, (k, l) ∈ shared_files g →
            l = cluster files k ∧ folder_set l = folders g ∧
            (2 ≤ base.size (folders g))%nat) as Hentries.
  { intros k l Hl.
    destruct (shared_files_spanning _ _ _ _ _ _ Hout Hg Hl) as (-> & Hs & ->).
    split_and!; [done..|lia]. }
  destruct (elem_of_analyze_folder_groups _ _ _ _ Hout Hg)
    as (fs & shared & -> & _ & [_ Hne]%elem_of_folder_relationships).
  simpl in *. split_and!; [|done|naive_solver].
  destruct shared as [|[k l] shared]; [done|].
  apply (Hentries k l). left.
Qed.

(** X2. The groups returned by [analyze_folder_groups] have pairwise
    different folder sets, and no groupID occurs twice, neither within a
    group nor in two groups. *)
Theorem analyze_groups_distinct (min_group_size : Z) (files : list DuplicateFile) :
  ∃ out, analyze_folder_groups min_group_size files = Some out ∧
         NoDup (folders <$> out) ∧ NoDup (all_keys out).
Proof.
  destruct (analyze_folder_groups min_group_size files) as [out|] eqn:Hout;
    [|by rewrite analyze_folder_groups_closed in Hout].
  exists out. split_and!; [done| |].
  - by eapply analyze_folder_groups_folders_NoDup.
  - by eapply pipeline_inv_analyze.
Qed.

(** X3. Raising the threshold only removes groups: the result for a larger
    [min_group_size] is the result for the smaller one, in the same order,
    without the groups below the larger threshold. *)
Theorem analyze_threshold_monotone (m m' : Z) (files : list DuplicateFile) :
  m ≤ m' →
  analyze_folder_groups m' files =
  filter (λ g, m' ≤ total_shared_size g) <$> analyze_folder_groups m files.
Proof.
  intros Hm. rewrite !analyze_folder_groups_closed. simpl. f_equal.
  rewrite sort_desc_filter. f_equal. rewrite list_filter_filter.
  apply filter_ext_elem. intros g _. lia.
Qed.

Lemma analyze_threshold_monotone_witness :
  1500 ≤ 3001 ∧
  analyze_folder_groups 3001 test_files =
  filter (λ g, 3001 ≤ total_shared_size g) <$> analyze_folder_groups 1500 test_files.
Proof. split; [lia|]. apply (analyze_threshold_monotone 1500 3001 test_files). lia. Defined.



(** X5. When no record has a negative size, every group returned by
    [analyze_folder_groups], and every group [compact_nested_folders] makes
    of them, has [0 <= total_shared_size <= wasted_space]: each cluster in
    a group has at least two copies. *)
Theorem wasted_space_at_least_total (min_group_size : Z) (files : list DuplicateFile) :
  (∀ f, f ∈ files → 0 ≤ size f) →
  ∃ out out',
    analyze_folder_groups min_group_size files = Some out ∧
    compact_nested_folders out = Some out' ∧
    Forall (λ g, 0 ≤ total_shared_size g ≤ wasted_space g) out ∧
    Forall (λ g, 0 ≤ total_shared_size g ≤ wasted_space g) out'.
Proof.
  intros Hpos.
  destruct (analyze_folder_groups min_group_size files) as [out|] eqn:Hout;
    [|by rewrite analyze_folder_groups_closed in Hout].
  assert (Forall (λ g, 0 ≤ total_shared_size g ≤ wasted_space g) out) as Hall.
  { apply Forall_forall. intros g Hg.
    destruct (elem_of_analyze_folder_groups _ _ _ _ Hout Hg)
      as (fs & shared & -> & _ & Hrel).
    simpl. by eapply make_group_wasted_ge_total. }
  destruct (compact_nested_folders_spec out) as (final & Hrun & _ & Hkeep).
  exists out, (sort_desc final). split_and!; [done..|].
  apply Forall_sort_desc, Hkeep; [|done].
  intros gs gs' Hgs (pre & gi & mid & gj & post & -> & -> & _)%merge_pass_Some.
  rewrite !Forall_app, !Forall_cons, !Forall_app, !Forall_cons in Hgs.
  destruct Hgs as (Hpre & Hgi & Hmid & Hgj & Hpost).
  rewrite !Forall_app, !Forall_cons, !Forall_app.
  split_and!; try done; simpl; lia.
Qed.

Lemma wasted_space_at_least_total_witness :
  (∀ f, f ∈ test_files → 0 ≤ size f) ∧
  ∃ out out',
    analyze_folder_groups 1500 test_files = Some out ∧
    compact_nested_folders out = Some out' ∧
    Forall (λ g, 0 ≤ total_shared_size g ≤ wasted_space g) out ∧
    Forall (λ g, 0 ≤ total_shared_size g ≤ wasted_space g) out'.
Proof.
  assert (∀ f, f ∈ test_files → 0 ≤ size f) as Hpos.
  { apply Forall_forall, (bool_decide_unpack _). by vm_compute. }
  split; [done|]. by apply (wasted_space_at_least_total 1500 test_files).
Defined.

(** X6. [compact_nested_folders] returns, and it conserves what the groups
    add up to: the sum of the [total_shared_size]s, the sum of the
    [wasted_space]s and the set of all folders named are those of the
    input, and the output is no longer than the input. *)
Theorem compact_conserves_metrics (groups : list FolderGroup) :
  ∃ out, compact_nested_folders groups = Some out ∧
         sum_totals out = sum_totals groups ∧
         sum_wasted out = sum_wasted groups ∧
         all_folders out = all_folders groups ∧
         (length out ≤ length groups)%nat.
Proof.
  destruct (compact_nested_folders_spec groups) as (final & Hrun & _ & Hkeep).
  exists (sort_desc final). split; [done|].
  assert (sum_totals final = sum_totals groups ∧
          sum_wasted final = sum_wasted groups ∧
          all_folders final = all_folders groups ∧
          (length final ≤ length groups)%nat) as (Ht & Hw & Hf & Hl).
  { apply (Hkeep (λ gs, sum_totals gs = sum_totals groups ∧
                        sum_wasted gs = sum_wasted groups ∧
                        all_folders gs = all_folders groups ∧
                        (length gs ≤ length groups)%nat)); [|done].
    intros gs gs' (Ht & Hw & Hf & Hl) Hpass.
    destruct (merge_pass_conserves _ _ Hpass) as (Ht' & Hw' & Hf' & _).
    apply merge_pass_length in Hpass. split_and!; [congruence..|lia]. }
  unfold sum_totals, sum_wasted in *.
  rewrite !(Zsum_perm _ _ (fmap_Permutation _ _ _ (sort_desc_perm final))).
  rewrite (all_folders_perm _ _ (sort_desc_perm final)).
  rewrite (Permutation_length (sort_desc_perm final)). done.
Qed.

(** X7. [compact_nested_folders] loses and invents no record: the records
    held by the groups of the output are, up to order, the records held by
    the groups of the input. *)
Theorem compact_keeps_records (groups : list FolderGroup) :
  ∃ out, compact_nested_folders groups = Some out ∧
         all_records out ≡ₚ all_records groups.
Proof.
  destruct (compact_nested_folders_spec groups) as (final & Hrun & _ & Hkeep).
  exists (sort_desc final). split; [done|].
  unfold all_records at 1. rewrite sort_desc_perm. fold (all_records final).
  apply (Hkeep (λ gs, all_records gs ≡ₚ all_records groups)); [|done].
  intros gs gs' Hgs Hpass.
  destruct (merge_pass_conserves _ _ Hpass) as (_ & _ & _ & Hr). by rewrite Hr.
Qed.

(** X8. Every group of the input is absorbed by a group of the output:
    some returned group names all its folders. *)
Theorem compact_absorbs_every_group (groups : list FolderGroup) :
  ∃ out, compact_nested_folders groups = Some out ∧
         ∀ g, g ∈ groups → ∃ g', g' ∈ out ∧ folders g ⊆ folders g'.
Proof.
  destruct (compact_nested_folders_spec groups) as (final & Hrun & _ & Hkeep).
  exists (sort_desc final). split; [done|]. intros g Hg.
  assert (∃ g', g' ∈ final ∧ folders g ⊆ folders g') as (g' & Hg' & Hsub).
  { apply (Hkeep (λ gs, ∃ g', g' ∈ gs ∧ folders g ⊆ folders g')); [|by exists g].
    intros gs gs' (g0 & Hg0 & Hsub) Hpass.
    destruct (merge_pass_absorbs _ _ g0 Hpass Hg0) as (g1 & Hg1 & Hsub1).
    exists g1. split; [done|]. set_solver. }
  exists g'. split; [by rewrite sort_desc_perm|done].
Qed.

(** X9. [compact_nested_folders] merges exactly when it can: the output has
    as many groups as the input if and only if no two groups of the input
    are mergeable, and in that case the output is the input, sorted. *)
Theorem compact_merges_iff_mergeable (groups : list FolderGroup) :
  ∃ out, compact_nested_folders groups = Some out ∧
         (length out = length groups ↔ pairwise_unmergeable groups) ∧
         (pairwise_unmergeable groups → out = sort_desc groups).
Proof.
  destruct (merge_pass groups) as [groups'|] eqn:Hpass.
  - destruct (compact_nested_folders_spec groups) as (final & Hrun & _ & Hkeep).
    exists (sort_desc final).
    assert (¬ pairwise_unmergeable groups) as Hno.
    { rewrite pairwise_unmergeable_separate, <- merge_pass_None. congruence. }
    assert (final = groups ∨ (length final < length groups)%nat) as [->|Hlt].
    { apply (Hkeep (λ gs, gs = groups ∨ (length gs < length groups)%nat));
        [|by left].
      intros gs gs' Hgs Hp%merge_pass_length. right.
      destruct Hgs as [->|?]; lia. }
    + split_and!; [done|..]; try done.
      split; [|done]. intros _. exfalso.
      destruct (compact_nested_folders_spec groups) as (final' & Hrun' & Hnone & _).
      rewrite Hrun in Hrun'. injection Hrun' as Heq.
      assert (merge_pass (sort_desc groups) = None) as Hs.
      { rewrite Heq. apply merge_pass_None. by apply sort_desc_separate. }
      apply merge_pass_None in Hs.
      apply Hno, pairwise_unmergeable_separate.
      eapply (StronglySorted_perm_sym separate); [apply sort_desc_perm|done].
    + split_and!; [done| |done].
      rewrite (Permutation_length (sort_desc_perm final)). split; [lia|done].
  - exists (sort_desc groups). split_and!.
    + by apply compact_nested_folders_no_merge.
    + rewrite (Permutation_length (sort_desc_perm groups)).
      split; [|done]. intros _.
      by apply pairwise_unmergeable_separate, merge_pass_None.
    + done.
Qed.

(** X10. In the output of [compact_nested_folders] applied to the output of
    [analyze_folder_groups] every duplicate cluster is reported at most
    once: no groupID occurs twice, neither within a group nor in two
    groups, and the records under a groupID are the whole cluster. *)
Theorem pipeline_reports_clusters_once (min_group_size : Z)
    (files : list DuplicateFile) :
  ∃ out out',
    analyze_folder_groups min_group_size files = Some out ∧
    compact_nested_folders out = Some out' ∧
    NoDup (all_keys out') ∧
    ∀ g k l, g ∈ out' → (k, l) ∈ shared_files g → l = cluster files k.
Proof.
  destruct (analyze_folder_groups min_group_size files) as [out|] eqn:Hout;
    [|by rewrite analyze_folder_groups_closed in Hout].
  destruct (compact_nested_folders_spec out) as (final & Hrun & _).
  exists out, (sort_desc final).
  destruct (pipeline_inv_compact files out (sort_desc final)) as [Hnd Hall];
    [by eapply pipeline_inv_analyze|done|].
  split_and!; [done..|].
  intros g k l Hg Hl. rewrite Forall_forall in Hall.
  destruct (Hall g Hg) as (Hc & _). rewrite Forall_forall in Hc.
  by destruct (Hc _ Hl).
Qed.

(** X11. When no folder name of two groups contains a [/], as is the case
    for top-level shared folders, nesting cannot occur and [should_merge]
    holds exactly when the two groups have a folder in common. *)
Theorem should_merge_top_level_folders (g1 g2 : FolderGroup) :
  (∀ a, a ∈ folders g1 ∪ folders g2 → slash_free a) →
  (should_merge g1 g2 = true ↔ ∃ a, a ∈ folders g1 ∧ a ∈ folders g2).
Proof.
  intros Hfree. rewrite should_merge_mergeable. split.
  - intros (a & b & Ha & Hb & [->|Hn]); [by exists b|].
    assert (is_nested a b = true) as Hnested
      by (apply is_nested_spec; tauto).
    rewrite slash_free_not_nested in Hnested; [done|apply Hfree; set_solver..].
  - intros (a & Ha & Hb). exists a, a. split_and!; [done..|]. by left.
Qed.

Lemma should_merge_top_level_folders_witness :
  (∀ a, a ∈ folders top_level_groups.1 ∪ folders top_level_groups.2 →
        slash_free a) ∧
  (should_merge top_level_groups.1 top_level_groups.2 = true ↔
   ∃ a, a ∈ folders top_level_groups.1 ∧ a ∈ folders top_level_groups.2).
Proof.
  assert (∀ a, a ∈ folders top_level_groups.1 ∪ folders top_level_groups.2 →
               slash_free a) as Hfree.
  { intros a. rewrite <- elem_of_elements. revert a. apply Forall_forall.
    apply (bool_decide_unpack _). by vm_compute. }
  split; [done|].
  by apply (should_merge_top_level_folders top_level_groups.1 top_level_groups.2).
Defined.

(** X12. Nesting goes by path components: a folder followed by [s] is
    nested with the folder exactly when [s] begins with [/]. So a folder is
    not nested with itself, nor [photos] with [photos2]. *)
Theorem is_nested_extension (a s : string) :
  is_nested a (a +:+ s) = true ↔ begins_with s "/".
Proof.
  rewrite is_nested_spec. split.
  - intros [[r Hr]|[r Hr]].
    + apply (f_equal String.length) in Hr. rewrite !append_length in Hr.
      simpl in Hr. lia.
    + rewrite append_assoc in Hr. apply (inj (String.app a)) in Hr. by exists r.
  - intros [r ->]. right. exists r. by rewrite append_assoc.
Qed.

(** X13. [read_duplicate_report] returns a list exactly when the file
    exists, its first row is the expected header and every further row has
    five fields with a size that [int] accepts; the list then has one
    record per data row, in the order of the rows, made of the first four
    fields, and the fifth field is ignored. *)
Theorem read_duplicate_report_success (int_of_string : string → option Z)
    (file_exists : bool) (rows : list (list string)) (files : list DuplicateFile) :
  read_duplicate_report int_of_string file_exists rows = inr files ↔
  file_exists = true ∧
  ∃ data, rows = expected_header :: data ∧
          Forall2 (row_of int_of_string) data files.
Proof.
  unfold read_duplicate_report. destruct file_exists; simpl; [|naive_solver].
  destruct rows as [|header data]; [naive_solver|].
  case_decide as Hh.
  - subst header. rewrite read_rows_inr. split.
    + intros (fs & -> & HF). split; [done|]. by exists data.
    + intros (_ & data' & [= <-] & HF). by exists files.
  - split; [done|]. intros (_ & data' & [= -> _] & _). done.
Qed.

(** X14. [read_duplicate_report] stops at the first row it cannot read:
    when the rows before it are readable, the error is the one of that row,
    whatever follows it. *)
Theorem read_duplicate_report_first_error (int_of_string : string → option Z)
    (good : list (list string)) (bad : list string) (rest : list (list string))
    (e : ReadError) :
  Forall (λ row, ∃ f, read_row int_of_string row = inr f) good →
  read_row int_of_string bad = inl e →
  read_duplicate_report int_of_string true (expected_header :: good ++ bad :: rest)
    = inl e.
Proof.
  intros Hgood Hbad. unfold read_duplicate_report. cbn [negb].
  destruct (decide (expected_header = expected_header)); [|done].
  by apply read_rows_first_error.
Qed.

Lemma read_duplicate_report_first_error_witness :
  Forall (λ row, ∃ f, read_row decimal_of_string row = inr f) (take 1 (drop 1 test_rows)) ∧
  read_row decimal_of_string short_row = inl (InvalidRowFormat short_row) ∧
  read_duplicate_report decimal_of_string true
    (expected_header :: take 1 (drop 1 test_rows) ++ short_row :: drop 2 test_rows)
    = inl (InvalidRowFormat short_row).
Proof.
  assert (Forall (λ row, ∃ f, read_row decimal_of_string row = inr f)
                 (take 1 (drop 1 test_rows))) as Hgood.
  { repeat constructor. eexists. by vm_compute. }
  split_and!; [done|done|].
  by apply (read_duplicate_report_first_error decimal_of_string
              (take 1 (drop 1 test_rows)) short_row (drop 2 test_rows)).
Defined.

(** X15. [extract_folder_name] returns [name] exactly for the paths
    [/volume1/name/...] with [name] non-empty and free of [/]; every other
    path is an error. *)
Theorem extract_folder_name_spec (path name : string) :
  extract_folder_name path = Some name ↔
  name ≠ "" ∧ slash_free name ∧
  ∃ rest, path = "/volume1/" +:+ name +:+ "/" +:+ rest.
Proof.
  unfold extract_folder_name. split.
  - destruct (strip_prefix "/volume1/" path) as [rest|] eqn:Hp; [|done]. simpl.
    apply strip_prefix_Some in Hp as ->.
    destruct (until_slash rest) as [n t] eqn:Hu.
    apply until_slash_inv in Hu as (-> & Hn & Ht).
    destruct n as [|c n]; [done|]. destruct t as [|c' t]; [done|].
    intros [= <-]. destruct Ht as [|[r Hr]]; [done|].
    split_and!; [done..|]. exists r. by rewrite Hr.
  - intros (Hne & Hfree & rest & ->).
    rewrite (proj2 (strip_prefix_Some "/volume1/" _ (name +:+ "/" +:+ rest)) eq_refl).
    simpl. rewrite until_slash_run by done. by destruct name.
Qed.

(** X16. A line that [parse_csv_line] accepts has five fields, none of the
    group, folder, path and time empty, and [read_duplicate_report] reads
    the same row into the record of the same group, folder, path and size.
    Conversely a row [read_duplicate_report] reads is rejected by
    [parse_csv_line] only for an empty field. *)
Theorem parse_csv_line_read_row (int_of_string : string → option Z)
    (fields : list string) :
  (∀ g fo p sz m,
     parse_csv_line int_of_string fields = inr (g, fo, p, sz, m) →
     g ≠ "" ∧ fo ≠ "" ∧ p ≠ "" ∧ m ≠ "" ∧
     (∃ size_str, fields = [g; fo; p; size_str; m] ∧
                  int_of_string size_str = Some sz) ∧
     read_row int_of_string fields =
       inr {| group_id := g; folder := fo; path := p; size := sz |}) ∧
  (∀ f, read_row int_of_string fields = inr f →
     parse_csv_line int_of_string fields = inl EmptyField ∨
     ∃ m, parse_csv_line int_of_string fields =
            inr (group_id f, folder f, path f, size f, m)).
Proof.
  unfold parse_csv_line, read_row.
  destruct fields as [|g0 [|fo0 [|p0 [|s0 [|m0 [|? ?]]]]]];
    try (split; intros; done).
  destruct (int_of_string s0) as [sz0|] eqn:Hs; [|split; intros; done].
  destruct (forallb _ _) eqn:Hall.
  - split.
    + intros g fo p sz m [= <- <- <- <- <-]. simpl in Hall.
      rewrite !andb_true_iff, !negb_true_iff, !String.eqb_neq in Hall.
      destruct Hall as (? & ? & ? & ? & _).
      split_and!; [done..| |done]. by exists s0.
    + intros f [= <-]. right. by exists m0.
  - split; [done|]. intros f _. by left.
Qed.
